(** * standalone-monarch: tokenization adapters and the theme color registry

    A shallow embedding of
    - [vs/editor/standalone/browser/standaloneLanguages.ts]
      ([TokenizationSupport2Adapter], [setMonarchTokensProvider]) and
    - [vs/platform/theme/common/colorRegistry.ts]
      ([ColorRegistry], [resolveColorValue]),
    together with the properties the specification states about them.

    JavaScript numbers that hold indices are integers of [Z]; the
    [Uint32Array] store is written out as reduction modulo [2^32]. Arrays
    that are only appended to are lists; a plain object used as a
    dictionary is the list of its own properties, in creation order,
    together with its prototype. *)

From Stdlib Require Import ZArith Lia Ascii String Sorted.
From stdpp Require Import gmap strings list fin_maps sorting.

(* ===================================================================== *)
(** * standaloneLanguages.ts *)
(* ===================================================================== *)

Module Languages.

Local Open Scope Z_scope.

(** [interface IToken { startIndex: number; scopes: string }] *)
Record IToken : Type := mkIToken {
  startIndex : Z;
  scopes : string
}.

(** Modelled from the spec: the [Token] class of
    [vs/editor/common/core/token], whose source is not part of the
    repository. A classic token carries the corrected start index, the
    scopes of the raw token and the owning language; the fields are the
    three arguments of [new Token(startIndex + offsetDelta, t.scopes,
    language)] in that order. *)
Record Token : Type := mkToken {
  tok_startIndex : Z;
  tok_scopes : string;
  tok_language : string
}.

(** [modes.LanguageIdentifier]: the adapter reads [.language] and [.id]. *)
Record LanguageIdentifier : Type := mkLanguageIdentifier {
  language : string;
  id : Z
}.

(** The [TokenTheme] capability: [match(languageId, scopes)] yields the
    packed metadata word. Its matching algorithm is external. *)
Record TokenTheme : Type := mkTokenTheme {
  tt_match : Z -> string -> Z
}.

(** [IStandaloneThemeService.getTheme().tokenTheme]: the theme that is
    active when the adapter asks for it. *)
Record IStandaloneTheme : Type := mkStandaloneTheme {
  tokenTheme : TokenTheme
}.

Record IStandaloneThemeService : Type := mkThemeService {
  getTheme : IStandaloneTheme
}.

(** ** [_toClassicTokens] *)

(** The [for] loop of [_toClassicTokens]: [i] is the loop counter and
    [previousStartIndex] the variable of that name. [result[i] = ...]
    writes the slots [0, 1, 2, ...] in turn, so the array is the list of
    the values written. *)
Fixpoint _toClassicTokens_loop (language : string) (offsetDelta : Z)
    (i : nat) (previousStartIndex : Z) (tokens : list IToken) : list Token :=
  match tokens with
  | [] => []
  | t :: rest =>
      let startIndex :=
        if (i =? 0)%nat then 0
        else if startIndex t <? previousStartIndex then previousStartIndex
        else startIndex t in
      mkToken (startIndex + offsetDelta) (scopes t) language
        :: _toClassicTokens_loop language offsetDelta (S i) startIndex rest
  end.

Definition _toClassicTokens (tokens : list IToken) (language : string)
    (offsetDelta : Z) : list Token :=
  _toClassicTokens_loop language offsetDelta 0%nat 0 tokens.

(** ** [_toBinaryTokens] *)

(** [ToUint32] on an integer: what storing a number into a [Uint32Array]
    slot keeps. *)
Definition to_uint32 (x : Z) : Z := x mod 2 ^ 32.

(** The first loop of [_toBinaryTokens]. [result] is the [number[]]
    buffer; the source keeps [resultLen] equal to its length and writes
    only at [result[resultLen++]], i.e. appends. The guard is the
    source's [resultLen > 0 && result[resultLen - 1] === metadata]; on
    [continue] the counter advances and nothing else changes. *)
Fixpoint _toBinaryTokens_loop (languageId : Z) (theme : TokenTheme)
    (offsetDelta : Z) (i : nat) (previousStartIndex : Z)
    (result : list Z) (tokens : list IToken) : list Z :=
  match tokens with
  | [] => result
  | t :: rest =>
      let resultLen := length result in
      let metadata := tt_match theme languageId (scopes t) in
      if (0 <? resultLen)%nat
         && bool_decide (result !! (resultLen - 1)%nat = Some metadata)
      then
        _toBinaryTokens_loop languageId theme offsetDelta (S i)
          previousStartIndex result rest
      else
        let startIndex :=
          if (i =? 0)%nat then 0
          else if startIndex t <? previousStartIndex then previousStartIndex
          else startIndex t in
        _toBinaryTokens_loop languageId theme offsetDelta (S i) startIndex
          (result ++ [startIndex + offsetDelta; metadata]) rest
  end.

(** The second loop copies the buffer into [new Uint32Array(resultLen)]. *)
Definition _toBinaryTokens (themeService : IStandaloneThemeService)
    (languageIdentifier : LanguageIdentifier)
    (tokens : list IToken) (offsetDelta : Z) : list Z :=
  let languageId := id languageIdentifier in
  let theme := tokenTheme (getTheme themeService) in
  to_uint32 <$>
    _toBinaryTokens_loop languageId theme offsetDelta 0%nat 0 [] tokens.

(** ** The adapter and its two entry points *)

Section Adapter.

(** Tokenization states are opaque objects owned by the grammar. A value
    of [IState] stands for a reference to such an object, so equality in
    [IState] is reference identity; [equals receiver other] is the
    grammar's own [receiver.equals(other)], about which nothing is
    assumed. *)
Variable IState : Type.
Variable equals : IState -> IState -> bool.

(** [interface ILineTokens { tokens: IToken[]; endState: IState }] *)
Record ILineTokens : Type := mkLineTokens {
  tokens : list IToken;
  endState : IState
}.

(** [interface TokensProvider] *)
Record TokensProvider : Type := mkTokensProvider {
  getInitialState : IState;
  tokenize_line : string -> IState -> ILineTokens
}.

(** Modelled from the spec: [TokenizationResult] and
    [TokenizationResult2] of [vs/editor/common/core/token] (absent from
    the repository): the pairs built by [new TokenizationResult(tokens,
    endState)] and [new TokenizationResult2(tokens, endState)]. *)
Record TokenizationResult : Type := mkTokenizationResult {
  tr_tokens : list Token;
  tr_endState : IState
}.

Record TokenizationResult2 : Type := mkTokenizationResult2 {
  tr2_tokens : list Z;
  tr2_endState : IState
}.

(** [class TokenizationSupport2Adapter] *)
Record TokenizationSupport2Adapter : Type := mkAdapter {
  _standaloneThemeService : IStandaloneThemeService;
  _languageIdentifier : LanguageIdentifier;
  _actual : TokensProvider
}.

Definition tokenize (this : TokenizationSupport2Adapter)
    (line : string) (state : IState) (offsetDelta : Z) : TokenizationResult :=
  let actualResult := tokenize_line (_actual this) line state in
  let tokens :=
    _toClassicTokens (tokens actualResult)
      (language (_languageIdentifier this)) offsetDelta in
  let endState :=
    if equals (endState actualResult) state then state
    else endState actualResult in
  mkTokenizationResult tokens endState.

Definition tokenize2 (this : TokenizationSupport2Adapter)
    (line : string) (state : IState) (offsetDelta : Z) : TokenizationResult2 :=
  let actualResult := tokenize_line (_actual this) line state in
  let tokens :=
    _toBinaryTokens (_standaloneThemeService this) (_languageIdentifier this)
      (tokens actualResult) offsetDelta in
  let endState :=
    if equals (endState actualResult) state then state
    else endState actualResult in
  mkTokenizationResult2 tokens endState.

End Adapter.

Arguments mkLineTokens {IState} _ _.
Arguments tokens {IState} _.
Arguments endState {IState} _.
Arguments mkTokensProvider {IState} _ _.
Arguments getInitialState {IState} _.
Arguments tokenize_line {IState} _ _ _.
Arguments mkTokenizationResult {IState} _ _.
Arguments tr_tokens {IState} _.
Arguments tr_endState {IState} _.
Arguments mkTokenizationResult2 {IState} _ _.
Arguments tr2_tokens {IState} _.
Arguments tr2_endState {IState} _.
Arguments mkAdapter {IState} _ _ _.
Arguments _standaloneThemeService {IState} _.
Arguments _languageIdentifier {IState} _.
Arguments _actual {IState} _.
Arguments tokenize {IState} equals this line state offsetDelta.
Arguments tokenize2 {IState} equals this line state offsetDelta.

(** ** Vocabulary for the statements *)

(** The raw tokens that pass the deduplication guard of
    [_toBinaryTokens], each with its position in the raw list. [last] is
    the metadata of the most recently emitted pair ([None] while the
    buffer is empty), which is what [result[resultLen - 1]] holds. *)
Fixpoint emitted_loop (languageId : Z) (theme : TokenTheme) (i : nat)
    (last : option Z) (tokens : list IToken) : list (nat * IToken) :=
  match tokens with
  | [] => []
  | t :: rest =>
      let metadata := tt_match theme languageId (scopes t) in
      if bool_decide (last = Some metadata)
      then emitted_loop languageId theme (S i) last rest
      else (i, t) :: emitted_loop languageId theme (S i) (Some metadata) rest
  end.

Definition emitted (themeService : IStandaloneThemeService)
    (languageIdentifier : LanguageIdentifier) (tokens : list IToken)
    : list (nat * IToken) :=
  emitted_loop (id languageIdentifier) (tokenTheme (getTheme themeService))
    0%nat None tokens.

Definition emitted_positions themeService languageIdentifier tokens : list nat :=
  (emitted themeService languageIdentifier tokens).*1.

Definition emitted_tokens themeService languageIdentifier tokens : list IToken :=
  (emitted themeService languageIdentifier tokens).*2.

(** The resolved metadata of each raw token. *)
Definition resolved_metadata (themeService : IStandaloneThemeService)
    (languageIdentifier : LanguageIdentifier) (tokens : list IToken) : list Z :=
  (fun t => tt_match (tokenTheme (getTheme themeService))
              (id languageIdentifier) (scopes t)) <$> tokens.

(** The number of maximal runs of equal consecutive values: a position
    opens a run when it is the first one or its value differs from the
    one just before it. *)
Fixpoint run_starts (previous : option Z) (ms : list Z) : nat :=
  match ms with
  | [] => 0%nat
  | m :: rest =>
      ((if bool_decide (previous = Some m) then 0 else 1)
       + run_starts (Some m) rest)%nat
  end.

Definition number_of_runs (ms : list Z) : nat := run_starts None ms.

(** How a list of classic tokens is laid out as [start, metadata] pairs
    of unsigned 32-bit words. *)
Definition encode_pairs (themeService : IStandaloneThemeService)
    (languageIdentifier : LanguageIdentifier) (classic : list Token) : list Z :=
  classic ≫= (fun tok =>
    [ to_uint32 (tok_startIndex tok);
      to_uint32 (tt_match (tokenTheme (getTheme themeService))
                   (id languageIdentifier) (tok_scopes tok)) ]).

(** The same layout before the copy into the typed array. *)
Definition raw_pairs (languageId : Z) (theme : TokenTheme)
    (classic : list Token) : list Z :=
  classic ≫= (fun tok =>
    [tok_startIndex tok; tt_match theme languageId (tok_scopes tok)]).


(** "The encoded array has even length, its start indices are
    non-decreasing, and the first one is [offsetDelta]." *)
Definition binary_well_formed (out : list Z) (tokens : list IToken)
    (offsetDelta : Z) : Prop :=
  Nat.Even (length out)
  /\ (forall (k : nat) (s s' : Z),
        out !! (2 * k)%nat = Some s ->
        out !! (2 * (k + 1))%nat = Some s' -> s <= s')
  /\ (tokens <> [] -> out !! 0%nat = Some offsetDelta).

(** ** [setMonarchTokensProvider] *)

(** What a call can do to its caller: return, or throw. *)
Inductive Outcome (A : Type) : Type :=
  | Returned (value : A)
  | Threw (error : string).

Arguments Returned {A} _.
Arguments Threw {A} _.

Section Provider.

Variable IMonarchLanguage : Type.
Variable ITokenizationSupport : Type.

(** [createTokenizationSupport(modeService, standaloneThemeService,
    languageId, compile(languageId, languageDef))]: both functions live
    in the monarch modules, outside the repository. *)
Variable createTokenizationSupport : string -> IMonarchLanguage -> ITokenizationSupport.

(** A thenable handed to the provider: a handle on a future, and its
    value once it has resolved. *)
Record Thenable : Type := mkThenable {
  future : nat;
  settled : option IMonarchLanguage
}.

(** [languageDef: IMonarchLanguage | Thenable<IMonarchLanguage>] *)
Inductive LanguageDef : Type :=
  | Immediate (def : IMonarchLanguage)
  | Deferred (promise : Thenable).

(** [typeof obj.then === "function"] *)
Definition isThenable (obj : LanguageDef) : bool :=
  match obj with
  | Deferred _ => true
  | Immediate _ => false
  end.

(** [languageDef.then(languageDef => create(languageDef))]: the source
    future together with the continuation that runs when it resolves. *)
Record SupportPromise : Type := mkSupportPromise {
  source : Thenable;
  continuation : IMonarchLanguage -> ITokenizationSupport
}.

(** Modelled from the spec: [modes.TokenizationRegistry] (absent from the
    repository). A language has either a concrete tokenizer installed or
    a pending one that is installed once its future resolves. *)
Inductive RegistryEntry : Type :=
  | Installed (support : ITokenizationSupport)
  | Pending (promise : SupportPromise).

(** The part of the page the function can touch: the tokenization
    registry, and the modal dialogs opened through the global [alert]. A
    host without that global (a worker, a server-side bundle) raises a
    [ReferenceError] at the call. *)
Record World : Type := mkWorld {
  has_alert : bool;
  dialogs : nat;
  registry : gmap string RegistryEntry
}.

(** [IDisposable] returned by the registry: the registration it undoes. *)
Record IDisposable : Type := mkDisposable {
  disposes : string
}.

(** A state-and-exception monad over [World]. *)
Definition M (A : Type) : Type := World -> Outcome A * World.

Definition ret {A : Type} (a : A) : M A := fun w => (Returned a, w).

Definition bind {A B : Type} (m : M A) (k : A -> M B) : M B :=
  fun w =>
    match m w with
    | (Returned a, w') => k a w'
    | (Threw e, w') => (Threw e, w')
    end.

Definition alert : M unit :=
  fun w =>
    if has_alert w
    then (Returned tt, mkWorld (has_alert w) (S (dialogs w)) (registry w))
    else (Threw "ReferenceError: alert is not defined", w).

(** Modelled from the spec: [TokenizationRegistry.register] and
    [TokenizationRegistry.registerPromise]; each records the entry for
    the language and hands back a disposable. *)
Definition TokenizationRegistry_register (languageId : string)
    (support : ITokenizationSupport) : M IDisposable :=
  fun w =>
    (Returned (mkDisposable languageId),
     mkWorld (has_alert w) (dialogs w)
       (<[languageId := Installed support]> (registry w))).

Definition TokenizationRegistry_registerPromise (languageId : string)
    (promise : SupportPromise) : M IDisposable :=
  fun w =>
    (Returned (mkDisposable languageId),
     mkWorld (has_alert w) (dialogs w)
       (<[languageId := Pending promise]> (registry w))).

Definition setMonarchTokensProvider (languageId : string)
    (languageDef : LanguageDef) : M IDisposable :=
  let create := fun languageDef => createTokenizationSupport languageId languageDef in
  match languageDef with
  | Deferred promise =>
      (* the branch taken when [isThenable languageDef] *)
      bind alert (fun _ =>
        TokenizationRegistry_registerPromise languageId
          (mkSupportPromise promise (fun languageDef => create languageDef)))
  | Immediate def =>
      TokenizationRegistry_register languageId (create def)
  end.

(** What the specification asks of a deferred registration: it returns a
    disposable, and the only thing that changed is the registry. *)
Definition registers_quietly (languageId : string) (languageDef : LanguageDef)
    (w : World) : Prop :=
  exists (d : IDisposable) (w' : World),
    setMonarchTokensProvider languageId languageDef w = (Returned d, w')
    /\ dialogs w' = dialogs w
    /\ is_Some (registry w' !! languageId).

End Provider.

Arguments mkThenable {IMonarchLanguage} _ _.
Arguments Immediate {IMonarchLanguage} _.
Arguments Deferred {IMonarchLanguage} _.
Arguments mkWorld {IMonarchLanguage ITokenizationSupport} _ _ _.
Arguments has_alert {IMonarchLanguage ITokenizationSupport} _.
Arguments dialogs {IMonarchLanguage ITokenizationSupport} _.
Arguments registry {IMonarchLanguage ITokenizationSupport} _.
Arguments Installed {IMonarchLanguage ITokenizationSupport} _.
Arguments Pending {IMonarchLanguage ITokenizationSupport} _.
Arguments mkSupportPromise {IMonarchLanguage ITokenizationSupport} _ _.
Arguments setMonarchTokensProvider {IMonarchLanguage ITokenizationSupport}
  createTokenizationSupport languageId languageDef _.
Arguments registers_quietly {IMonarchLanguage ITokenizationSupport}
  createTokenizationSupport languageId languageDef w.

End Languages.

(* ===================================================================== *)
(** * colorRegistry.ts *)
(* ===================================================================== *)

Module Colors.

(** [ITheme.type]: ['dark' | 'light' | 'hc'] *)
Inductive ThemeType : Type :=
  | type_dark
  | type_light
  | type_hc.

(** ** Plain objects used as dictionaries *)

(** [colorsById] and [colorSchema.properties] are plain objects created
    by [{}] and used as dictionaries. Such an object has its own
    properties, kept in the order in which they were created, and a
    prototype. [proto] is [None] while the prototype is still
    [Object.prototype], and [Some v] once the assignment
    [o["__proto__"] = v] has replaced it by the object [v]. *)
Record JSObject (V : Type) : Type := mkObject {
  own : list (string * V);
  proto : option V
}.

Arguments mkObject {V} _ _.
Arguments own {V} _.
Arguments proto {V} _.

Section Objects.

Context {V : Type}.

(** [{}] *)
Definition new_object : JSObject V := mkObject [] None.

Fixpoint own_get (k : string) (l : list (string * V)) : option V :=
  match l with
  | [] => None
  | (k', v) :: rest =>
      if bool_decide (k' = k) then Some v else own_get k rest
  end.

(** Writing an own property: an existing one keeps its place, a new one
    goes last. *)
Fixpoint own_set (k : string) (v : V) (l : list (string * V))
    : list (string * V) :=
  match l with
  | [] => [(k, v)]
  | (k', v') :: rest =>
      if bool_decide (k' = k) then (k, v) :: rest
      else (k', v') :: own_set k v rest
  end.

Fixpoint own_delete (k : string) (l : list (string * V)) : list (string * V) :=
  match l with
  | [] => []
  | (k', v') :: rest =>
      if bool_decide (k' = k) then own_delete k rest
      else (k', v') :: own_delete k rest
  end.

(** [o[k]], as far as it is one of the values stored in the dictionary:
    an own property, or, for the key ["__proto__"], the object that was
    assigned as prototype. Every other inherited value (a member of
    [Object.prototype], or a member of the assigned prototype) is no
    stored value; the only reader of such a value,
    [resolveDefaultColor], finds no [defaults] member on it and answers
    as for [undefined], so it is [None] here. *)
Definition object_get (k : string) (o : JSObject V) : option V :=
  match own_get k (own o) with
  | Some v => Some v
  | None => if bool_decide (k = "__proto__") then proto o else None
  end.

(** [o[k] = v] for an object [v]. The key ["__proto__"] is the accessor
    inherited from [Object.prototype]: unless the object has an own
    property of that name, the assignment replaces the prototype and
    creates no own property. *)
Definition object_set (k : string) (v : V) (o : JSObject V) : JSObject V :=
  if bool_decide (k = "__proto__")
     && negb (bool_decide (is_Some (own_get k (own o))))
  then mkObject (own o) (Some v)
  else mkObject (own_set k v (own o)) (proto o).

(** [delete o[k]]: removes an own property and nothing else; it never
    touches the prototype. *)
Definition object_delete (k : string) (o : JSObject V) : JSObject V :=
  mkObject (own_delete k (own o)) (proto o).

#[export] Instance object_lookup : Lookup string V (JSObject V) := object_get.

(** *** [Object.keys] *)

Definition digit_value (c : ascii) : option N :=
  let n := N_of_ascii c in
  if ((48 <=? n) && (n <=? 57))%N then Some (n - 48)%N else None.

Fixpoint decimal_value (acc : N) (s : string) : option N :=
  match s with
  | EmptyString => Some acc
  | String c rest =>
      match digit_value c with
      | Some d => decimal_value (10 * acc + d)%N rest
      | None => None
      end
  end.

(** A key that is an array index: the canonical decimal spelling of an
    integer below [2^32 - 1]. *)
Definition array_index (k : string) : option N :=
  match k with
  | EmptyString => None
  | String c rest =>
      if bool_decide (c = "0"%char) && negb (bool_decide (rest = EmptyString))
      then None
      else match decimal_value 0 k with
           | Some n => if (n <? 2 ^ 32 - 1)%N then Some n else None
           | None => None
           end
  end.

Definition index_le (a b : string) : Prop :=
  (default 0 (array_index a) <= default 0 (array_index b))%N.

#[export] Instance index_le_dec (a b : string) : Decision (index_le a b).
Proof. unfold index_le. apply _. Defined.

(** [Object.keys(o)]: the own keys that are array indices in ascending
    numeric order, then the other own keys in the order of their
    creation. *)
Definition Object_keys (o : JSObject V) : list string :=
  let keys := (own o).*1 in
  merge_sort index_le (filter (fun k => is_Some (array_index k)) keys)
  ++ filter (fun k => ~ is_Some (array_index k)) keys.

End Objects.

Section Registry.

(** The [Color] class and its static [Color.fromHex] belong to
    [vs/base/common/color], which is outside the repository; the registry
    only passes colors around and calls [fromHex] on literals. *)
Variable Color : Type.
Variable Color_fromHex : string -> Color.

(** [ITheme]: the capability the resolver consumes. *)
Record ITheme : Type := mkTheme {
  type : ThemeType;
  getColor : string -> option Color
}.

(** [type ColorValue = Color | string | ColorIdentifier | ColorFunction],
    where [ColorFunction] is [(theme: ITheme) => Color | undefined]. *)
Inductive ColorValue : Type :=
  | CVColor (color : Color)
  | CVString (text : string)
  | CVFunction (fn : ITheme -> option Color).

(** [interface ColorDefaults]; a [null] entry is [None]. *)
Record ColorDefaults : Type := mkDefaults {
  light : option ColorValue;
  dark : option ColorValue;
  hc : option ColorValue
}.

(** [interface ColorContribution] *)
Record ColorContribution : Type := mkContribution {
  id : string;
  description : string;
  defaults : option ColorDefaults;
  needsTransparency : bool;
  deprecationMessage : option string
}.

(** [colorDesc.defaults[theme.type]] *)
Definition defaults_at (d : ColorDefaults) (t : ThemeType) : option ColorValue :=
  match t with
  | type_dark => dark d
  | type_light => light d
  | type_hc => hc d
  end.

(** [resolveColorValue(colorValue: ColorValue | null, theme)].
    [String.get 0 s] is the source's [colorValue[0]]. The last
    [return undefined] of the source is reached by no value of the
    declared type. *)
Definition resolveColorValue (colorValue : option ColorValue) (theme : ITheme)
    : option Color :=
  match colorValue with
  | None => None
  | Some (CVString s) =>
      if bool_decide (String.get 0 s = Some "#"%char)
      then Some (Color_fromHex s)
      else getColor theme s
  | Some (CVColor c) => Some c
  | Some (CVFunction f) => f theme
  end.

(** The property schema [registerColor] files under [colorSchema.properties]. *)
Record PropertySchema : Type := mkPropertySchema {
  schema_type : string;
  schema_description : string;
  schema_format : string;
  schema_default : string;
  schema_deprecationMessage : option string
}.

(** [class ColorRegistry]. [fired] counts the calls of
    [_onDidChangeSchema.fire()]. *)
Record ColorRegistry : Type := mkRegistry {
  colorsById : JSObject ColorContribution;
  colorSchema_properties : JSObject PropertySchema;
  colorReferenceSchema_enum : list string;
  colorReferenceSchema_enumDescriptions : list string;
  fired : nat
}.

(** [constructor()] and the field initialisers. *)
Definition new_ColorRegistry : ColorRegistry :=
  mkRegistry new_object new_object [] [] 0.

(** [if (deprecationMessage)]: a message that is present and not empty. *)
Definition truthy (message : option string) : option string :=
  match message with
  | Some EmptyString => None
  | other => other
  end.

(** [registerColor(id, defaults, description, needsTransparency = false,
    deprecationMessage?)]; an omitted argument is [None]. *)
Definition registerColor (id : string) (defaults : option ColorDefaults)
    (description : string) (needsTransparency : option bool)
    (deprecationMessage : option string) (this : ColorRegistry)
    : string * ColorRegistry :=
  let colorContribution :=
    mkContribution id description defaults
      (default false needsTransparency) deprecationMessage in
  let propertySchema :=
    mkPropertySchema "string" description "color-hex" "#ff0000"
      (truthy deprecationMessage) in
  (id,
   mkRegistry
     (object_set id colorContribution (colorsById this))
     (object_set id propertySchema (colorSchema_properties this))
     (colorReferenceSchema_enum this ++ [id])
     (colorReferenceSchema_enumDescriptions this ++ [description])
     (S (fired this))).

(** [Array.prototype.indexOf]: the first position, or [-1]. *)
Fixpoint indexOf (l : list string) (x : string) : Z :=
  match l with
  | [] => (-1)%Z
  | y :: rest =>
      if bool_decide (y = x) then 0%Z
      else let r := indexOf rest x in
           if (r =? -1)%Z then (-1)%Z else (r + 1)%Z
  end.

(** [array.splice(index, 1)] *)
Definition splice1 {A : Type} (index : Z) (l : list A) : list A :=
  delete (Z.to_nat index) l.

Definition deregisterColor (id : string) (this : ColorRegistry) : ColorRegistry :=
  let colorsById' := object_delete id (colorsById this) in
  let properties' := object_delete id (colorSchema_properties this) in
  let index := indexOf (colorReferenceSchema_enum this) id in
  if negb (index =? -1)%Z then
    mkRegistry colorsById' properties'
      (splice1 index (colorReferenceSchema_enum this))
      (splice1 index (colorReferenceSchema_enumDescriptions this))
      (S (fired this))
  else
    mkRegistry colorsById' properties'
      (colorReferenceSchema_enum this)
      (colorReferenceSchema_enumDescriptions this)
      (S (fired this)).

(** [Object.keys(this.colorsById).map(id => this.colorsById[id])] *)
Definition getColors (this : ColorRegistry) : list ColorContribution :=
  omap (fun id => colorsById this !! id) (Object_keys (colorsById this)).

Definition resolveDefaultColor (id : string) (theme : ITheme)
    (this : ColorRegistry) : option Color :=
  match colorsById this !! id with
  | Some colorDesc =>
      match defaults colorDesc with
      | Some d =>
          let colorValue := defaults_at d (type theme) in
          resolveColorValue colorValue theme
      | None => None
      end
  | None => None
  end.

Definition ColorContribution_ids (l : list ColorContribution) : list string :=
  (fun c => id c) <$> l.

(** The states the registry can be in: what [registerColor] and
    [deregisterColor] make of a new registry. *)
Inductive reachable : ColorRegistry -> Prop :=
  | reachable_new : reachable new_ColorRegistry
  | reachable_register id defaults description needsTransparency
      deprecationMessage this :
      reachable this ->
      reachable (registerColor id defaults description needsTransparency
                   deprecationMessage this).2
  | reachable_deregister id this :
      reachable this -> reachable (deregisterColor id this).

(** Two registries that differ at most in how often the notification
    fired. *)
Definition same_contents (x y : ColorRegistry) : Prop :=
  colorsById x = colorsById y
  /\ colorSchema_properties x = colorSchema_properties y
  /\ colorReferenceSchema_enum x = colorReferenceSchema_enum y
  /\ colorReferenceSchema_enumDescriptions x
     = colorReferenceSchema_enumDescriptions y.

(** "After [deregisterColor(id)] the contribution and the schema entries
    of [id] are gone, a second call changes nothing, and each call fires
    the notification." *)
Definition deregister_clears (id : string) (this : ColorRegistry) : Prop :=
  let once := deregisterColor id this in
  let twice := deregisterColor id once in
  (id ∉ ColorContribution_ids (getColors once))
  /\ colorsById once !! id = None
  /\ colorSchema_properties once !! id = None
  /\ (id ∉ colorReferenceSchema_enum once)
  /\ same_contents twice once
  /\ fired once = S (fired this)
  /\ fired twice = S (fired once).

(** A list without the first occurrence of [x]. *)
Fixpoint remove_first (x : string) (l : list string) : list string :=
  match l with
  | [] => []
  | y :: rest => if bool_decide (y = x) then rest else y :: remove_first x rest
  end.

(** The scenario of the specification: color ["a"] with dark default
    ["#FF0000"], then color ["b"] whose dark default is the reference
    ["a"]. The other defaults, and the registry it starts from, are
    free. *)
Definition scenario_registry (light_a hc_a light_b hc_b : option ColorValue)
    (this : ColorRegistry) : ColorRegistry :=
  let with_a :=
    (registerColor "a"
       (Some (mkDefaults light_a (Some (CVString "#FF0000")) hc_a))
       EmptyString None None this).2 in
  (registerColor "b"
     (Some (mkDefaults light_b (Some (CVString "a")) hc_b))
     EmptyString None None with_a).2.

(** "Resolving ["b"] against any dark theme yields #FF0000." *)
Definition resolves_b_to_FF0000 (this : ColorRegistry) : Prop :=
  forall theme : ITheme,
    type theme = type_dark ->
    resolveDefaultColor "b" theme this = Some (Color_fromHex "#FF0000").

End Registry.

Arguments mkTheme {Color} _ _.
Arguments type {Color} _.
Arguments getColor {Color} _ _.
Arguments CVColor {Color} _.
Arguments CVString {Color} _.
Arguments CVFunction {Color} _.
Arguments mkDefaults {Color} _ _ _.
Arguments light {Color} _.
Arguments dark {Color} _.
Arguments hc {Color} _.
Arguments mkContribution {Color} _ _ _ _ _.
Arguments id {Color} _.
Arguments description {Color} _.
Arguments defaults {Color} _.
Arguments needsTransparency {Color} _.
Arguments deprecationMessage {Color} _.
Arguments defaults_at {Color} _ _.
Arguments resolveColorValue {Color} Color_fromHex colorValue theme.
Arguments mkRegistry {Color} _ _ _ _ _.
Arguments colorsById {Color} _.
Arguments colorSchema_properties {Color} _.
Arguments colorReferenceSchema_enum {Color} _.
Arguments colorReferenceSchema_enumDescriptions {Color} _.
Arguments fired {Color} _.
Arguments registerColor {Color} id defaults description needsTransparency
  deprecationMessage this.
Arguments deregisterColor {Color} id this.
Arguments getColors {Color} this.
Arguments ColorContribution_ids {Color} _.
Arguments resolveDefaultColor {Color} Color_fromHex id theme this.
Arguments reachable {Color} _.
Arguments same_contents {Color} _ _.
Arguments deregister_clears {Color} id this.
Arguments scenario_registry {Color} light_a hc_a light_b hc_b this.
Arguments resolves_b_to_FF0000 {Color} Color_fromHex this.

End Colors.

(* ===================================================================== *)
(** * Concrete instances *)
(* ===================================================================== *)

(** Small grammars, themes and registries on which the statements below
    are run. *)
Module Examples.

Import Languages.
Local Open Scope Z_scope.

(** A token theme that packs the language id into bits 0-7 and the
    standard token type into bits 8-10: [Comment = 1] for the scope
    ["comment"], [Other = 0] for any other scope. *)
Definition demo_tokenTheme : TokenTheme :=
  mkTokenTheme (fun languageId scopes =>
    Z.lor languageId
      (Z.shiftl (if bool_decide (scopes = "comment") then 1 else 0) 8)).

Definition demo_themeService : IStandaloneThemeService :=
  mkThemeService (mkStandaloneTheme demo_tokenTheme).

Definition demo_language : LanguageIdentifier :=
  mkLanguageIdentifier "demo" 7.

(** A buggy grammar's line: the third token starts before the second. *)
Definition out_of_order_tokens : list IToken :=
  [ mkIToken 0 "source"; mkIToken 5 "source"; mkIToken 2 "comment" ].

(** The scenario of the specification: starts 0, 5, 2. *)
Definition scenario_tokens : list IToken :=
  [ mkIToken 0 "x"; mkIToken 5 "y"; mkIToken 2 "z" ].

(** A well-behaved line with a run of three equally styled tokens. *)
Definition ordered_tokens : list IToken :=
  [ mkIToken 0 "source"; mkIToken 3 "source"; mkIToken 4 "source";
    mkIToken 9 "comment" ].

(** Three tokens that resolve to one metadata word. *)
Definition uniform_tokens : list IToken :=
  [ mkIToken 0 "source"; mkIToken 2 "source.inner"; mkIToken 6 "other" ].

Definition two_tokens : list IToken :=
  [ mkIToken 0 "source"; mkIToken 1 "comment" ].

(** States are numbered objects; the grammar calls two of them equal when
    they have the same parity. *)
Definition parity_equals (a b : nat) : bool :=
  bool_decide (Nat.even a = Nat.even b).

(** A grammar whose end state is a fresh object equal to its input. *)
Definition same_state_provider : TokensProvider nat :=
  mkTokensProvider 0%nat (fun _ state => mkLineTokens scenario_tokens (state + 2)%nat).

(** A grammar whose end state differs from its input. *)
Definition new_state_provider : TokensProvider nat :=
  mkTokensProvider 0%nat (fun _ state => mkLineTokens scenario_tokens (state + 1)%nat).

Definition demo_adapter (provider : TokensProvider nat)
    : TokenizationSupport2Adapter nat :=
  mkAdapter demo_themeService demo_language provider.

(** *** Colors *)

(** Modelled from the spec: the [Color] class of [vs/base/common/color]
    (absent from the repository), as what the registry's callers build
    with [new Color(new RGBA(r, g, b, a))]; the alpha channel is kept
    here as the byte a hex literal spells. *)
Record RGBA : Type := mkRGBA {
  r : Z;
  g : Z;
  b : Z;
  a : Z
}.

Definition hex_digit (c : ascii) : option Z :=
  let n := Z.of_N (N_of_ascii c) in
  if (48 <=? n) && (n <=? 57) then Some (n - 48)
  else if (65 <=? n) && (n <=? 70) then Some (n - 55)
  else if (97 <=? n) && (n <=? 102) then Some (n - 87)
  else None.

Fixpoint hex_digits (s : string) : option (list Z) :=
  match s with
  | EmptyString => Some []
  | String c rest =>
      match hex_digit c, hex_digits rest with
      | Some d, Some ds => Some (d :: ds)
      | _, _ => None
      end
  end.

(** Modelled from the spec: [Color.fromHex] "parses a literal hex color
    (supports [#RGB], [#RRGGBB], [#RRGGBBAA])". The spec says nothing of
    other strings; this instance maps them to transparent black. *)
Definition Color_fromHex (hex : string) : RGBA :=
  match hex with
  | String "#"%char digits =>
      match hex_digits digits with
      | Some [r1; g1; b1] =>
          mkRGBA (17 * r1) (17 * g1) (17 * b1) 255
      | Some [r1; r2; g1; g2; b1; b2] =>
          mkRGBA (16 * r1 + r2) (16 * g1 + g2) (16 * b1 + b2) 255
      | Some [r1; r2; g1; g2; b1; b2; a1; a2] =>
          mkRGBA (16 * r1 + r2) (16 * g1 + g2) (16 * b1 + b2) (16 * a1 + a2)
      | _ => mkRGBA 0 0 0 0
      end
  | _ => mkRGBA 0 0 0 0
  end.

Definition blue : RGBA := mkRGBA 0 0 255 255.

(** The registry of the scenario, started from a new registry. *)
Definition scenario : Colors.ColorRegistry RGBA :=
  Colors.scenario_registry None None None None (Colors.new_ColorRegistry RGBA).

(** A dark theme that answers with the registry's own default for a
    color it does not customise, the default being resolved against a
    theme without colors. *)
Definition default_dark_theme : Colors.ITheme RGBA :=
  Colors.mkTheme Colors.type_dark (fun id =>
    Colors.resolveDefaultColor Color_fromHex id
      (Colors.mkTheme Colors.type_dark (fun _ => None)) scenario).

(** A dark theme that sets the color ["a"] itself. *)
Definition custom_dark_theme : Colors.ITheme RGBA :=
  Colors.mkTheme Colors.type_dark (fun id =>
    if bool_decide (id = "a") then Some blue else None).

(** The id ["__proto__"] registered with dark default ["#FF0000"]. *)
Definition registered_proto : Colors.ColorRegistry RGBA :=
  (Colors.registerColor "__proto__"
     (Some (Colors.mkDefaults None (Some (Colors.CVString "#FF0000")) None))
     "proto" None None (Colors.new_ColorRegistry RGBA)).2.

(** Color ["a"] registered twice over, as an overwrite does. *)
Definition registered_twice : Colors.ColorRegistry RGBA :=
  (Colors.registerColor "a" None "second" None None
     (Colors.registerColor "a" None "first" None None
        (Colors.new_ColorRegistry RGBA)).2).2.

End Examples.

(* ===================================================================== *)
(** * stringBuilder.ts *)
(* ===================================================================== *)

Module StringBuilder.

Local Open Scope Z_scope.

(** A JavaScript string is its sequence of UTF-16 code units. *)
Definition JSString : Type := list Z.

(** [String.fromCharCode(charCode)]: one code unit, the argument reduced
    modulo [2^16]. *)
Definition String_fromCharCode (charCode : Z) : JSString :=
  [charCode mod 2 ^ 16].

(** [class CompatStringBuilder] *)
Record CompatStringBuilder : Type := mkBuilder {
  _pieces : JSString
}.

(** [constructor()] *)
Definition new_CompatStringBuilder : CompatStringBuilder := mkBuilder [].

(** [createStringBuilder = (capacity) => new CompatStringBuilder()] *)
Definition createStringBuilder (capacity : Z) : CompatStringBuilder :=
  new_CompatStringBuilder.

Definition reset (this : CompatStringBuilder) : CompatStringBuilder :=
  mkBuilder [].

Definition build (this : CompatStringBuilder) : JSString :=
  _pieces this.

Definition write1 (charCode : Z) (this : CompatStringBuilder)
    : CompatStringBuilder :=
  mkBuilder (_pieces this ++ String_fromCharCode charCode).

Definition appendASCII (charCode : Z) (this : CompatStringBuilder)
    : CompatStringBuilder :=
  write1 charCode this.

Definition appendASCIIString (str : JSString) (this : CompatStringBuilder)
    : CompatStringBuilder :=
  mkBuilder (_pieces this ++ str).

(** The mutating methods of [IStringBuilder], as the calls a client
    makes one after the other on one builder. *)
Inductive Call : Type :=
  | Call_reset
  | Call_write1 (charCode : Z)
  | Call_appendASCII (charCode : Z)
  | Call_appendASCIIString (str : JSString).

Definition call (c : Call) (this : CompatStringBuilder) : CompatStringBuilder :=
  match c with
  | Call_reset => reset this
  | Call_write1 charCode => write1 charCode this
  | Call_appendASCII charCode => appendASCII charCode this
  | Call_appendASCIIString str => appendASCIIString str this
  end.

Definition run (calls : list Call) (this : CompatStringBuilder)
    : CompatStringBuilder :=
  fold_left (fun sb c => call c sb) calls this.

(** The text a call hands to the builder. *)
Definition appended (c : Call) : JSString :=
  match c with
  | Call_reset => []
  | Call_write1 charCode => [charCode mod 2 ^ 16]
  | Call_appendASCII charCode => [charCode mod 2 ^ 16]
  | Call_appendASCIIString str => str
  end.

Definition is_reset (c : Call) : bool :=
  match c with
  | Call_reset => true
  | _ => false
  end.

(** The typing of a JavaScript string in this model: every element is
    a 16-bit code unit. It says nothing more about the text (pairing of
    surrogates, for one). *)
Definition code_units (s : JSString) : Prop :=
  Forall (fun u => 0 <= u < 2 ^ 16) s.

End StringBuilder.

(* ===================================================================== *)
(** * Further vocabulary for the adapters *)
(* ===================================================================== *)

Module LanguagesMore.

Import Languages.
Local Open Scope Z_scope.

(** A classic token read back as a raw token: what a grammar would
    report if it replayed the adapter's output. *)
Definition as_raw (tok : Token) : IToken :=
  mkIToken (tok_startIndex tok) (tok_scopes tok).

(** A raw token emitted as it is, moved by [offsetDelta]. *)
Definition as_classic (language : string) (offsetDelta : Z) (t : IToken)
    : Token :=
  mkToken (startIndex t + offsetDelta) (scopes t) language.

(** "A non-empty line whose tokens all resolve to one metadata value
    yields exactly one pair: the corrected start index of the first raw
    token, and that metadata." *)
Definition uniform_line_gives_corrected_start
    (themeService : IStandaloneThemeService)
    (languageIdentifier : LanguageIdentifier)
    (tokens : list IToken) (offsetDelta : Z) : Prop :=
  forall m : Z,
    tokens <> [] ->
    Forall (fun x => x = m)
      (resolved_metadata themeService languageIdentifier tokens) ->
    exists tok,
      head (_toClassicTokens tokens (language languageIdentifier) offsetDelta)
      = Some tok
      /\ _toBinaryTokens themeService languageIdentifier tokens offsetDelta
         = [tok_startIndex tok; m].

(** The start indices (even slots) and the metadata words (odd slots) of
    an encoded token array. *)
Fixpoint starts_of (out : list Z) : list Z :=
  match out with
  | s :: _ :: rest => s :: starts_of rest
  | _ => []
  end.

Fixpoint metadata_of (out : list Z) : list Z :=
  match out with
  | _ :: m :: rest => m :: metadata_of rest
  | _ => []
  end.

(** The first value of every maximal run of equal consecutive values. *)
Fixpoint run_heads (previous : option Z) (ms : list Z) : list Z :=
  match ms with
  | [] => []
  | m :: rest =>
      if bool_decide (previous = Some m)
      then run_heads (Some m) rest
      else m :: run_heads (Some m) rest
  end.

End LanguagesMore.

(* ===================================================================== *)
(** * More of colorRegistry.ts, and editorColorRegistry.ts *)
(* ===================================================================== *)

Module ColorsMore.

Import Colors.

Section Functions.

Variable Color : Type.
Variable Color_fromHex : string -> Color.

(** The loop of [oneOf(...colorValues)]: the first value that resolves
    to a color decides. A resolved [Color] is an object, so the test
    [if (color)] is the test for [undefined]. *)
Fixpoint oneOf_loop (colorValues : list (ColorValue Color))
    (theme : ITheme Color) : option Color :=
  match colorValues with
  | [] => None
  | colorValue :: rest =>
      match resolveColorValue Color_fromHex (Some colorValue) theme with
      | Some color => Some color
      | None => oneOf_loop rest theme
      end
  end.

(** [oneOf(...colorValues): ColorFunction] *)
Definition oneOf (colorValues : list (ColorValue Color))
    : ITheme Color -> option Color :=
  fun theme => oneOf_loop colorValues theme.

(** The two mutating methods of [IColorRegistry], as the calls made on
    the registry one after the other. *)
Inductive RegistryCall : Type :=
  | Call_registerColor (id : string) (defaults : option (ColorDefaults Color))
      (description : string) (needsTransparency : option bool)
      (deprecationMessage : option string)
  | Call_deregisterColor (id : string).

Definition apply_call (c : RegistryCall) (this : ColorRegistry Color)
    : ColorRegistry Color :=
  match c with
  | Call_registerColor id defaults description needsTransparency
      deprecationMessage =>
      (registerColor id defaults description needsTransparency
         deprecationMessage this).2
  | Call_deregisterColor id => deregisterColor id this
  end.

Definition run_calls (calls : list RegistryCall) (this : ColorRegistry Color)
    : ColorRegistry Color :=
  fold_left (fun registry c => apply_call c registry) calls this.

(** *** The theming participant of [editorColorRegistry.ts] *)

(** How a color prints inside a template literal: [Color.toString], of
    the absent [vs/base/common/color]. *)
Variable Color_toString : Color -> string.

(** The ids [registerColor] returned for the six colors the participant
    reads. *)
Definition editorBackground : string := "editor.background".
Definition editorForeground : string := "editor.foreground".
Definition editorGutter : string := "editorGutter.background".
Definition editorRangeHighlight : string := "editor.rangeHighlightBackground".
Definition editorRangeHighlightBorder : string := "editor.rangeHighlightBorder".
Definition editorWhitespaces : string := "editorWhitespace.foreground".

Definition participant_colors : list string :=
  [ editorBackground; editorForeground; editorGutter; editorRangeHighlight;
    editorRangeHighlightBorder; editorWhitespaces ].

(** [collector.addRule(rule)]: the collector is the list of the rules
    added so far. *)
Definition addRule (rule : string) (collector : list string) : list string :=
  collector ++ [rule].

(** The callback handed to [registerThemingParticipant]. *)
Definition themingParticipant (theme : ITheme Color) (collector : list string)
    : list string :=
  let collector :=
    match getColor theme editorBackground with
    | Some background =>
        addRule (".monaco-editor, .monaco-editor-background, .monaco-editor .inputarea.ime-input { background-color: "
                 +:+ Color_toString background +:+ "; }") collector
    | None => collector
    end in
  let collector :=
    match getColor theme editorForeground with
    | Some foreground =>
        addRule (".monaco-editor, .monaco-editor .inputarea.ime-input { color: "
                 +:+ Color_toString foreground +:+ "; }") collector
    | None => collector
    end in
  let collector :=
    match getColor theme editorGutter with
    | Some gutter =>
        addRule (".monaco-editor .margin { background-color: "
                 +:+ Color_toString gutter +:+ "; }") collector
    | None => collector
    end in
  let collector :=
    match getColor theme editorRangeHighlight with
    | Some rangeHighlight =>
        addRule (".monaco-editor .rangeHighlight { background-color: "
                 +:+ Color_toString rangeHighlight +:+ "; }") collector
    | None => collector
    end in
  let collector :=
    match getColor theme editorRangeHighlightBorder with
    | Some rangeHighlightBorder =>
        addRule (".monaco-editor .rangeHighlight { border: 1px "
                 +:+ (match type theme with
                      | type_hc => "dotted"
                      | _ => "solid"
                      end)
                 +:+ " " +:+ Color_toString rangeHighlightBorder +:+ "; }")
          collector
    | None => collector
    end in
  match getColor theme editorWhitespaces with
  | Some invisibles =>
      addRule (".vs-whitespace { color: "
               +:+ Color_toString invisibles +:+ " !important; }") collector
  | None => collector
  end.

End Functions.

Arguments oneOf_loop {Color} Color_fromHex colorValues theme.
Arguments oneOf {Color} Color_fromHex colorValues _.
Arguments Call_registerColor {Color} id defaults description
  needsTransparency deprecationMessage.
Arguments Call_deregisterColor {Color} id.
Arguments apply_call {Color} c this.
Arguments run_calls {Color} calls this.
Arguments themingParticipant {Color} Color_toString theme collector.

End ColorsMore.

(* ===================================================================== *)
(** * Properties of the tokenization adapters *)
(* ===================================================================== *)

Module LanguagesFacts.

Import Languages.
Local Open Scope Z_scope.

(** ** The classic loop *)

Section ClassicLoop.

Variable lang : string.
Variable offsetDelta : Z.

Lemma classic_loop_length tokens i prev :
  length (_toClassicTokens_loop lang offsetDelta i prev tokens) = length tokens.
Proof.
  revert i prev. induction tokens as [|t rest IH]; intros i prev; simpl.
  - reflexivity.
  - f_equal. apply IH.
Qed.

Lemma classic_loop_scopes tokens i prev :
  tok_scopes <$> _toClassicTokens_loop lang offsetDelta i prev tokens
  = scopes <$> tokens.
Proof.
  revert i prev. induction tokens as [|t rest IH]; intros i prev; simpl.
  - reflexivity.
  - f_equal. apply IH.
Qed.

Lemma classic_loop_language tokens i prev :
  Forall (fun tok => tok_language tok = lang)
    (_toClassicTokens_loop lang offsetDelta i prev tokens).
Proof.
  revert i prev. induction tokens as [|t rest IH]; intros i prev; simpl.
  - constructor.
  - constructor; [reflexivity | apply IH].
Qed.

(** Past the first iteration every start index written is at least the
    baseline the loop carries, and the indices written never decrease. *)
Lemma classic_loop_sorted tokens i prev :
  i <> 0%nat ->
  Sorted Z.le
    ((prev + offsetDelta)
       :: (tok_startIndex <$> _toClassicTokens_loop lang offsetDelta i prev tokens)).
Proof.
  revert i prev. induction tokens as [|t rest IH]; intros i prev Hi; simpl.
  - repeat constructor.
  - destruct (Nat.eqb_spec i 0) as [->|_]; [congruence|].
    constructor.
    + destruct (Z.ltb_spec (startIndex t) prev); apply IH; discriminate.
    + constructor. destruct (Z.ltb_spec (startIndex t) prev); lia.
Qed.

Lemma toClassicTokens_sorted tokens :
  Sorted Z.le (tok_startIndex <$> _toClassicTokens tokens lang offsetDelta).
Proof.
  unfold _toClassicTokens. destruct tokens as [|t rest]; simpl.
  - constructor.
  - apply (classic_loop_sorted rest 1%nat 0). discriminate.
Qed.

(** With an offset delta and raw start indices that fit, every index
    written is an unsigned 32-bit value. *)
Lemma classic_loop_bounds tokens i prev :
  0 <= offsetDelta -> 0 <= prev -> prev + offsetDelta < 2 ^ 32 ->
  Forall (fun t => startIndex t + offsetDelta < 2 ^ 32) tokens ->
  Forall (fun tok => 0 <= tok_startIndex tok < 2 ^ 32)
    (_toClassicTokens_loop lang offsetDelta i prev tokens).
Proof.
  intros Hd. revert i prev.
  induction tokens as [|t rest IH]; intros i prev Hp Hb Hall; simpl.
  - constructor.
  - inversion Hall as [|? ? Ht Hrest]; subst.
    destruct (Nat.eqb_spec i 0) as [->|_].
    + constructor; [simpl; lia | apply IH; [lia | lia | exact Hrest]].
    + destruct (Z.ltb_spec (startIndex t) prev).
      * constructor; [simpl; lia | apply IH; [lia | lia | exact Hrest]].
      * constructor; [simpl; lia | apply IH; [lia | lia | exact Hrest]].
Qed.

End ClassicLoop.

(** Adjacent entries of a sorted list are in order. *)
Lemma Sorted_le_lookup_succ (l : list Z) (k : nat) (a b : Z) :
  Sorted Z.le l -> l !! k = Some a -> l !! S k = Some b -> a <= b.
Proof.
  intros Hs. revert k. induction Hs as [|x l Hs IH Hhd]; intros k Ha Hb.
  - discriminate.
  - destruct k as [|k]; simpl in *.
    + inversion Ha; subst. destruct l as [|y l']; [discriminate|].
      simpl in Hb. inversion Hb; subst. inversion Hhd; subst. assumption.
    + eapply IH; eassumption.
Qed.

(** ** The binary loop *)

Section BinaryLoop.

Variable languageId : Z.
Variable theme : TokenTheme.
Variable lang : string.
Variable offsetDelta : Z.

Lemma guard_is_last (result : list Z) (metadata : Z) :
  ((0 <? length result)%nat
   && bool_decide (result !! (length result - 1)%nat = Some metadata))
  = bool_decide (last result = Some metadata).
Proof.
  rewrite last_lookup. destruct result as [|x r]; simpl.
  - reflexivity.
  - rewrite Nat.sub_0_r. reflexivity.
Qed.

(** The binary loop writes what the classic loop writes on the tokens
    that pass the deduplication guard. The two counters may differ, but
    they leave zero together. *)
Lemma binary_loop_spec tokens : forall (i j : nat) prev result lastmd,
  last result = lastmd ->
  (i = 0%nat -> j = 0%nat /\ lastmd = None) ->
  (i <> 0%nat -> j <> 0%nat) ->
  _toBinaryTokens_loop languageId theme offsetDelta i prev result tokens
  = result ++
    raw_pairs languageId theme (_toClassicTokens_loop lang offsetDelta j prev
                 (emitted_loop languageId theme i lastmd tokens).*2).
Proof.
  induction tokens as [|t rest IH]; intros i j prev result lastmd Hlast H0 Hn.
  - simpl. rewrite app_nil_r. reflexivity.
  - cbn [_toBinaryTokens_loop emitted_loop].
    rewrite guard_is_last, Hlast.
    case_bool_decide as Hm.
    + assert (i <> 0%nat) as Hi.
      { intros ->. destruct (H0 eq_refl) as [_ E]. congruence. }
      apply IH; [assumption | intros; lia | intros _; auto].
    + cbn [fmap list_fmap snd _toClassicTokens_loop].
      assert ((i =? 0)%nat = (j =? 0)%nat) as ->.
      { destruct (Nat.eqb_spec i 0) as [Ei|Ei].
        - destruct (H0 Ei) as [-> _]. reflexivity.
        - specialize (Hn Ei). symmetry. apply Nat.eqb_neq. assumption. }
      erewrite (IH (S i) (S j)).
      * unfold raw_pairs at 2. cbn [mbind list_bind tok_startIndex tok_scopes].
        rewrite <- app_assoc. reflexivity.
      * rewrite last_app. reflexivity.
      * intros; lia.
      * intros; lia.
Qed.

Lemma emitted_loop_runs tokens : forall i lastmd,
  length (emitted_loop languageId theme i lastmd tokens)
  = run_starts lastmd
      ((fun t => tt_match theme languageId (scopes t)) <$> tokens).
Proof.
  induction tokens as [|t rest IH]; intros i lastmd; simpl.
  - reflexivity.
  - case_bool_decide as Hm; simpl.
    + rewrite IH, Hm. reflexivity.
    + rewrite IH. reflexivity.
Qed.

Lemma emitted_loop_all_same tokens (m : Z) : forall i,
  Forall (fun t => tt_match theme languageId (scopes t) = m) tokens ->
  emitted_loop languageId theme i (Some m) tokens = [].
Proof.
  induction tokens as [|t rest IH]; intros i Hall; simpl.
  - reflexivity.
  - inversion Hall as [|? ? Ht Hrest]; subst.
    rewrite bool_decide_eq_true_2 by reflexivity. apply IH. assumption.
Qed.

Lemma emitted_loop_Forall (P : IToken -> Prop) tokens : forall i lastmd,
  Forall P tokens -> Forall P (emitted_loop languageId theme i lastmd tokens).*2.
Proof.
  induction tokens as [|t rest IH]; intros i lastmd Hall; simpl.
  - constructor.
  - inversion Hall as [|? ? Ht Hrest]; subst.
    case_bool_decide; simpl; [apply IH | constructor; [|apply IH]]; assumption.
Qed.

(** Every position listed by [emitted_loop] holds the token listed with it. *)
Lemma emitted_loop_lookup tokens : forall i lastmd k p t,
  emitted_loop languageId theme i lastmd tokens !! k = Some (p, t) ->
  (i <= p)%nat /\ tokens !! (p - i)%nat = Some t.
Proof.
  induction tokens as [|t0 rest IH]; intros i lastmd k p t Hk; simpl in Hk.
  - discriminate.
  - case_bool_decide.
    + apply IH in Hk as [Hle Hk]. split; [lia|].
      replace (p - i)%nat with (S (p - S i)) by lia. exact Hk.
    + destruct k as [|k]; simpl in Hk.
      * inversion Hk; subst. split; [lia|]. rewrite Nat.sub_diag. reflexivity.
      * apply IH in Hk as [Hle Hk]. split; [lia|].
        replace (p - i)%nat with (S (p - S i)) by lia. exact Hk.
Qed.

End BinaryLoop.

Lemma run_starts_le ms : forall previous, (run_starts previous ms <= length ms)%nat.
Proof.
  induction ms as [|m rest IH]; intros previous; simpl.
  - lia.
  - specialize (IH (Some m)). case_bool_decide; lia.
Qed.

Lemma run_starts_lt ms : forall previous (k : nat) (x : Z),
  ms !! k = Some x -> ms !! S k = Some x ->
  (run_starts previous ms < length ms)%nat.
Proof.
  induction ms as [|m rest IH]; intros previous k x Hk HSk.
  - discriminate.
  - simpl. destruct k as [|k]; simpl in Hk, HSk.
    + inversion Hk; subst. destruct rest as [|m' rest']; [discriminate|].
      simpl in HSk. inversion HSk; subst. simpl.
      rewrite (bool_decide_eq_true_2 (Some x = Some x)) by reflexivity.
      pose proof (run_starts_le rest' (Some x)). case_bool_decide; lia.
    + specialize (IH (Some m) k x Hk HSk). case_bool_decide; lia.
Qed.

Lemma encode_pairs_length ts lid classic :
  length (encode_pairs ts lid classic) = (2 * length classic)%nat.
Proof.
  unfold encode_pairs. induction classic as [|tok rest IH].
  - reflexivity.
  - rewrite bind_cons, length_app, IH. simpl. lia.
Qed.

Lemma encode_pairs_lookup_even ts lid classic : forall k : nat,
  encode_pairs ts lid classic !! (2 * k)%nat
  = (fun tok => to_uint32 (tok_startIndex tok)) <$> (classic !! k).
Proof.
  unfold encode_pairs. induction classic as [|tok rest IH]; intros k.
  - reflexivity.
  - destruct k as [|k]; [reflexivity|].
    replace (2 * S k)%nat with (S (S (2 * k))) by lia.
    rewrite bind_cons. simpl. apply IH.
Qed.

Lemma encode_pairs_raw languageId theme ts lid classic :
  id lid = languageId -> tokenTheme (getTheme ts) = theme ->
  to_uint32 <$> raw_pairs languageId theme classic = encode_pairs ts lid classic.
Proof.
  intros <- <-. unfold raw_pairs, encode_pairs.
  induction classic as [|tok rest IH].
  - reflexivity.
  - rewrite !bind_cons, fmap_app, IH. reflexivity.
Qed.

(** The array [_toBinaryTokens] returns is the classic adapter's output
    on the emitted tokens, laid out as pairs of 32-bit words. *)
Lemma toBinaryTokens_as_classic ts lid tokens offsetDelta :
  _toBinaryTokens ts lid tokens offsetDelta
  = encode_pairs ts lid
      (_toClassicTokens (emitted_tokens ts lid tokens) (language lid) offsetDelta).
Proof.
  unfold _toBinaryTokens, _toClassicTokens, emitted_tokens, emitted.
  rewrite (binary_loop_spec (id lid) (tokenTheme (getTheme ts)) (language lid)
             offsetDelta tokens 0 0 0 [] None); try tauto; try reflexivity.
  simpl. apply encode_pairs_raw; reflexivity.
Qed.

(** When the raw start indices after the first token are non-negative
    and never decrease, the classic loop leaves them as they are. *)
Lemma classic_loop_ordered lang offsetDelta tokens : forall i prev,
  i <> 0%nat ->
  Sorted Z.le (prev :: (startIndex <$> tokens)) ->
  _toClassicTokens_loop lang offsetDelta i prev tokens
  = (fun t => mkToken (startIndex t + offsetDelta) (scopes t) lang) <$> tokens.
Proof.
  induction tokens as [|t rest IH]; intros i prev Hi Hs; simpl.
  - reflexivity.
  - destruct (Nat.eqb_spec i 0) as [->|_]; [congruence|].
    inversion Hs as [|? ? Hs' Hhd]; subst.
    inversion Hhd as [|? ? Hle]; subst.
    destruct (Z.ltb_spec (startIndex t) prev); [lia|].
    f_equal. apply IH; [discriminate | exact Hs'].
Qed.


(** ** The adapters on the example lines *)

(** The scenario of the specification: raw starts 0, 5, 2 become
    0, 5, 5. *)
Example toClassicTokens_scenario :
  tok_startIndex <$> _toClassicTokens Examples.scenario_tokens "demo" 0
  = [0; 5; 5].
Proof. reflexivity. Qed.

(** The binary form on the out-of-order line: the second token is
    skipped and the third keeps its own start. *)
Example toBinaryTokens_out_of_order :
  _toBinaryTokens Examples.demo_themeService Examples.demo_language
    Examples.out_of_order_tokens 0
  = [0; 7; 2; 263].
Proof. vm_compute. reflexivity. Qed.

(** ** The claims *)

(** C1. For every line, state and offset delta, the classic form of the
    adapter ([tokenize], through [_toClassicTokens]) emits one token per
    raw token of the grammar; the first emitted start index is
    [offsetDelta]; the emitted start indices never decrease; the scopes
    are those of the raw tokens, in order; and every emitted token
    carries the adapter's language. *)
Theorem tokenize_classic_tokens {IState : Type}
    (equals : IState -> IState -> bool)
    (this : TokenizationSupport2Adapter IState)
    (line : string) (state : IState) (offsetDelta : Z) :
  let raw := tokens (tokenize_line (_actual this) line state) in
  let result := tr_tokens (tokenize equals this line state offsetDelta) in
  length result = length raw
  /\ tok_startIndex <$> head result = (fun _ => offsetDelta) <$> head raw
  /\ Sorted Z.le (tok_startIndex <$> result)
  /\ tok_scopes <$> result = scopes <$> raw
  /\ Forall (fun tok => tok_language tok = language (_languageIdentifier this))
       result.
Proof.
  cbn zeta. unfold tokenize. cbn [tr_tokens].
  set (raw := tokens (tokenize_line (_actual this) line state)).
  repeat split.
  - apply classic_loop_length.
  - destruct raw; reflexivity.
  - apply toClassicTokens_sorted.
  - apply classic_loop_scopes.
  - apply classic_loop_language.
Qed.




(** C3, as stated, fails: the pair is stored in a [Uint32Array], so
    with [offsetDelta = -1] a line of three equally styled tokens yields
    the start 4294967295, while the corrected start index of its first
    token is -1. *)
Lemma uniform_line_gives_corrected_start_fails :
  ~ LanguagesMore.uniform_line_gives_corrected_start Examples.demo_themeService
      Examples.demo_language Examples.uniform_tokens (-1).
Proof.
  intros H. destruct (H 7) as (tok & Hhead & Hout).
  - discriminate.
  - change (resolved_metadata Examples.demo_themeService
              Examples.demo_language Examples.uniform_tokens)
      with [7; 7; 7].
    repeat (apply Forall_cons; split; [reflexivity|]). apply Forall_nil. exact I.
  - vm_compute in Hhead. inversion Hhead; subst tok.
    vm_compute in Hout. discriminate Hout.
Qed.

(** C3, amended. The binary form collapses adjacent tokens with the same
    metadata. A non-empty line whose tokens all resolve to one metadata
    word yields exactly one pair, the pair of the first classic token
    laid out as unsigned 32-bit words; when [0 <= offsetDelta < 2^32]
    and the metadata is a 32-bit word, that pair is the corrected start
    index of the first raw token and the metadata themselves. In general
    the array has twice as many entries as the resolved metadata has
    maximal runs of equal consecutive values, and fewer than twice the
    raw token count as soon as two neighbours share their metadata. *)
Theorem toBinaryTokens_run_compression (ts : IStandaloneThemeService)
    (lid : LanguageIdentifier) (raw : list IToken) (offsetDelta : Z) :
  let out := _toBinaryTokens ts lid raw offsetDelta in
  let ms := resolved_metadata ts lid raw in
  (forall m : Z, raw <> [] -> Forall (fun x => x = m) ms ->
     out = encode_pairs ts lid
             (take 1 (_toClassicTokens raw (language lid) offsetDelta)))
  /\ (0 <= offsetDelta < 2 ^ 32 ->
      Forall (fun m => 0 <= m < 2 ^ 32) ms ->
      LanguagesMore.uniform_line_gives_corrected_start ts lid raw offsetDelta)
  /\ length out = (2 * number_of_runs ms)%nat
  /\ (forall (k : nat) (x : Z), ms !! k = Some x -> ms !! S k = Some x ->
        (length out < 2 * length raw)%nat).
Proof.
  cbn zeta.
  assert (length (_toBinaryTokens ts lid raw offsetDelta)
          = (2 * number_of_runs (resolved_metadata ts lid raw))%nat) as Hlen.
  { rewrite toBinaryTokens_as_classic, encode_pairs_length.
    unfold _toClassicTokens. rewrite classic_loop_length.
    unfold emitted_tokens, emitted. rewrite length_fmap, emitted_loop_runs.
    reflexivity. }
  assert (forall m : Z, raw <> [] ->
            Forall (fun x => x = m) (resolved_metadata ts lid raw) ->
            _toBinaryTokens ts lid raw offsetDelta
            = encode_pairs ts lid
                (take 1 (_toClassicTokens raw (language lid) offsetDelta))
            /\ exists t, head raw = Some t
                 /\ tt_match (tokenTheme (getTheme ts)) (id lid) (scopes t) = m)
    as Hone.
  { intros m Hne Hall. rewrite toBinaryTokens_as_classic.
    destruct raw as [|t rest]; [congruence|].
    unfold resolved_metadata in Hall. rewrite Forall_fmap in Hall.
    apply Forall_cons in Hall as [Ht Hrest]. simpl in Ht.
    unfold emitted_tokens, emitted, _toClassicTokens.
    cbn [emitted_loop]. rewrite bool_decide_eq_false_2 by discriminate.
    rewrite Ht, (emitted_loop_all_same _ _ rest m)
      by (eapply Forall_impl; [exact Hrest | intros ? E; exact E]).
    split; [reflexivity|]. exists t. split; [reflexivity | exact Ht]. }
  split; [|split; [|split; [exact Hlen|]]].
  - intros m Hne Hall. apply (Hone m Hne Hall).
  - intros Hd Hrange m Hne Hall.
    destruct (Hone m Hne Hall) as (Hout & t & Ht & Hm).
    destruct raw as [|t0 rest]; [congruence|].
    cbn in Ht. inversion Ht; subst t0. clear Ht.
    assert (0 <= m < 2 ^ 32) as Hmr.
    { unfold resolved_metadata in Hrange. rewrite Forall_fmap in Hrange.
      apply Forall_cons in Hrange as [Hr _]. cbn in Hr. rewrite Hm in Hr.
      exact Hr. }
    exists (mkToken (0 + offsetDelta) (scopes t) (language lid)).
    split; [reflexivity|]. rewrite Hout.
    unfold _toClassicTokens. cbn [_toClassicTokens_loop Nat.eqb take].
    unfold encode_pairs. cbn [mbind list_bind app tok_startIndex tok_scopes].
    rewrite Hm. unfold to_uint32.
    rewrite !Z.mod_small by lia. reflexivity.
  - intros k x Hk HSk. rewrite Hlen.
    pose proof (run_starts_lt (resolved_metadata ts lid raw) None k x Hk HSk)
      as Hlt.
    unfold number_of_runs.
    unfold resolved_metadata in Hlt at 2. rewrite length_fmap in Hlt. lia.
Qed.

(** The amended C3 on a line of three tokens that share their metadata,
    with [offsetDelta = 4]: the one pair [4, 7]. *)
Lemma toBinaryTokens_run_compression_witness :
  LanguagesMore.uniform_line_gives_corrected_start Examples.demo_themeService
    Examples.demo_language Examples.uniform_tokens 4
  /\ (length (_toBinaryTokens Examples.demo_themeService Examples.demo_language
               Examples.ordered_tokens 4)
      < 2 * length Examples.ordered_tokens)%nat.
Proof.
  split.
  - apply (proj1 (proj2 (toBinaryTokens_run_compression
                    Examples.demo_themeService Examples.demo_language
                    Examples.uniform_tokens 4))).
    + lia.
    + change (resolved_metadata Examples.demo_themeService
                Examples.demo_language Examples.uniform_tokens)
        with [7; 7; 7].
      repeat (apply Forall_cons; split; [lia|]). apply Forall_nil. exact I.
  - apply (proj2 (proj2 (proj2 (toBinaryTokens_run_compression
                    Examples.demo_themeService Examples.demo_language
                    Examples.ordered_tokens 4))) 0%nat 7); reflexivity.
Defined.

(** C10, as stated, fails: the array holds unsigned 32-bit words, so with
    [offsetDelta = 2^32 - 1] the second pair of a two-token line starts
    at [(1 + offsetDelta) mod 2^32 = 0], below the first. *)
Lemma binary_well_formed_fails :
  ~ binary_well_formed
      (_toBinaryTokens Examples.demo_themeService Examples.demo_language
         Examples.two_tokens 4294967295)
      Examples.two_tokens 4294967295.
Proof.
  intros (_ & Hmono & _).
  specialize (Hmono 0%nat 4294967295 0 eq_refl eq_refl). lia.
Qed.

(** C10, amended. For every raw token list, empty or out of order, the
    array of the binary form has even length. When moreover
    [0 <= offsetDelta < 2^32] and every raw start index plus
    [offsetDelta] is below [2^32], the start indices stored at the even
    positions never decrease and, for a non-empty list, the first one is
    [offsetDelta], although skipped tokens do not advance the clamping
    baseline. *)
Theorem toBinaryTokens_well_formed (ts : IStandaloneThemeService)
    (lid : LanguageIdentifier) (raw : list IToken) (offsetDelta : Z) :
  let out := _toBinaryTokens ts lid raw offsetDelta in
  Nat.Even (length out)
  /\ (0 <= offsetDelta < 2 ^ 32 ->
      Forall (fun t => startIndex t + offsetDelta < 2 ^ 32) raw ->
      binary_well_formed out raw offsetDelta).
Proof.
  cbn zeta.
  assert (Nat.Even (length (_toBinaryTokens ts lid raw offsetDelta))) as Heven.
  { rewrite toBinaryTokens_as_classic, encode_pairs_length.
    eexists. reflexivity. }
  split; [exact Heven|].
  intros Hd Hraw. split; [exact Heven|].
  rewrite toBinaryTokens_as_classic.
  set (kept := _toClassicTokens (emitted_tokens ts lid raw) (language lid)
                 offsetDelta).
  assert (Forall (fun tok => 0 <= tok_startIndex tok < 2 ^ 32) kept) as Hb.
  { unfold kept, _toClassicTokens. apply classic_loop_bounds; try lia.
    unfold emitted_tokens, emitted. apply emitted_loop_Forall. exact Hraw. }
  assert (forall k s, encode_pairs ts lid kept !! (2 * k)%nat = Some s ->
            (tok_startIndex <$> kept) !! k = Some s) as Hget.
  { intros k s Hk. rewrite encode_pairs_lookup_even in Hk.
    rewrite list_lookup_fmap.
    destruct (kept !! k) as [tok|] eqn:Htok; [|discriminate].
    simpl in Hk |- *. inversion Hk; subst. f_equal.
    rewrite Forall_lookup in Hb. specialize (Hb k tok Htok).
    unfold to_uint32. rewrite Z.mod_small; [reflexivity | exact Hb]. }
  split.
  - intros k s s' Hk HSk. rewrite Nat.add_1_r in HSk.
    apply Hget in Hk. apply Hget in HSk.
    eapply Sorted_le_lookup_succ; [|exact Hk|exact HSk].
    apply toClassicTokens_sorted.
  - intros Hne. destruct raw as [|t rest]; [congruence|].
    change 0%nat with (2 * 0)%nat. rewrite encode_pairs_lookup_even.
    unfold kept, emitted_tokens, emitted, _toClassicTokens.
    cbn [emitted_loop]. rewrite bool_decide_eq_false_2 by discriminate.
    simpl. f_equal. unfold to_uint32. rewrite Z.mod_small; lia.
Qed.

(** The amended C10 on the out-of-order line with [offsetDelta = 10]. *)
Lemma toBinaryTokens_well_formed_witness :
  binary_well_formed
    (_toBinaryTokens Examples.demo_themeService Examples.demo_language
       Examples.out_of_order_tokens 10)
    Examples.out_of_order_tokens 10.
Proof.
  apply (proj2 (toBinaryTokens_well_formed Examples.demo_themeService
                  Examples.demo_language Examples.out_of_order_tokens 10)).
  - lia.
  - unfold Examples.out_of_order_tokens.
    repeat (apply Forall_cons; split; [cbn [startIndex]; lia|]).
    apply Forall_nil. exact I.
Defined.

(** C4. For every line, input state and offset delta: when the end state
    the grammar returns is equal, by its own [equals], to the input
    state, both [tokenize] and [tokenize2] return the input state object
    itself; otherwise both return the grammar's end state. *)
Theorem tokenize_reuses_equal_state {IState : Type}
    (equals : IState -> IState -> bool)
    (this : TokenizationSupport2Adapter IState)
    (line : string) (state : IState) (offsetDelta : Z) :
  let grammarEnd := endState (tokenize_line (_actual this) line state) in
  (equals grammarEnd state = true ->
     tr_endState (tokenize equals this line state offsetDelta) = state
     /\ tr2_endState (tokenize2 equals this line state offsetDelta) = state)
  /\ (equals grammarEnd state = false ->
     tr_endState (tokenize equals this line state offsetDelta) = grammarEnd
     /\ tr2_endState (tokenize2 equals this line state offsetDelta) = grammarEnd).
Proof.
  cbn zeta. unfold tokenize, tokenize2. cbn [tr_endState tr2_endState].
  split; intros ->; split; reflexivity.
Qed.

(** C4 on a grammar that answers state 4 with the distinct but equal
    state 6, and on one that answers with the unequal state 5. *)
Lemma tokenize_reuses_equal_state_witness :
  (tr_endState (tokenize Examples.parity_equals
                  (Examples.demo_adapter Examples.same_state_provider)
                  "abc" 4%nat 0) = 4%nat
   /\ tr2_endState (tokenize2 Examples.parity_equals
                      (Examples.demo_adapter Examples.same_state_provider)
                      "abc" 4%nat 0) = 4%nat)
  /\ (tr_endState (tokenize Examples.parity_equals
                     (Examples.demo_adapter Examples.new_state_provider)
                     "abc" 4%nat 0) = 5%nat
      /\ tr2_endState (tokenize2 Examples.parity_equals
                         (Examples.demo_adapter Examples.new_state_provider)
                         "abc" 4%nat 0) = 5%nat).
Proof.
  split.
  - apply (proj1 (tokenize_reuses_equal_state Examples.parity_equals
                    (Examples.demo_adapter Examples.same_state_provider)
                    "abc" 4%nat 0)).
    reflexivity.
  - apply (proj2 (tokenize_reuses_equal_state Examples.parity_equals
                    (Examples.demo_adapter Examples.new_state_provider)
                    "abc" 4%nat 0)).
    reflexivity.
Defined.

(** C5. Registering a thenable language definition is not quiet: before
    it reaches the registry the function calls the global [alert]. Where
    that global exists a modal dialog opens and the pending tokenizer is
    registered afterwards; where it does not, the call throws and
    nothing is registered. In neither case does the call return a
    disposable having touched the registry only. *)
Theorem setMonarchTokensProvider_deferred_alerts
    {IMonarchLanguage ITokenizationSupport : Type}
    (create : string -> IMonarchLanguage -> ITokenizationSupport)
    (languageId : string) (promise : Thenable IMonarchLanguage)
    (w : World IMonarchLanguage ITokenizationSupport) :
  setMonarchTokensProvider create languageId (Deferred promise) w
  = (if has_alert w
     then (Returned (mkDisposable languageId),
           mkWorld true (S (dialogs w))
             (<[languageId :=
                  Pending (mkSupportPromise promise (create languageId))]>
                (registry w)))
     else (Threw "ReferenceError: alert is not defined", w))
  /\ ~ registers_quietly create languageId (Deferred promise) w.
Proof.
  unfold registers_quietly, setMonarchTokensProvider, bind, alert,
    TokenizationRegistry_registerPromise.
  destruct (has_alert w) eqn:Ha.
  - split; [reflexivity|].
    intros (d & w' & Heq & Hd & _). inversion Heq; subst w'.
    simpl in Hd. lia.
  - split; [reflexivity|].
    intros (d & w' & Heq & _). discriminate Heq.
Qed.

End LanguagesFacts.

(* ===================================================================== *)
(** * Properties of the color registry *)
(* ===================================================================== *)

Module ColorsFacts.

Import Colors.

(** ** Strings and arrays *)

Lemma starts_with_hash (s : string) :
  String.prefix "#" s = true <-> String.get 0 s = Some "#"%char.
Proof.
  destruct s as [|c rest]; cbn [String.prefix String.get].
  - split; discriminate.
  - destruct (ascii_dec "#" c) as [<-|Hne].
    + split; [reflexivity|]. intros _. destruct rest; reflexivity.
    + split; [discriminate|]. intros H. congruence.
Qed.

Lemma indexOf_lower (l : list string) (x : string) : (-1 <= indexOf l x)%Z.
Proof.
  induction l as [|y rest IH]; simpl.
  - lia.
  - case_bool_decide; [lia|].
    destruct (Z.eqb_spec (indexOf rest x) (-1)); lia.
Qed.

Lemma indexOf_absent (l : list string) (x : string) :
  x ∉ l -> indexOf l x = (-1)%Z.
Proof.
  induction l as [|y rest IH]; intros Hx; simpl.
  - reflexivity.
  - apply not_elem_of_cons in Hx as [Hne Hrest].
    rewrite bool_decide_eq_false_2 by congruence.
    rewrite (IH Hrest). reflexivity.
Qed.

(** [indexOf] followed by [splice(index, 1)] drops the first occurrence. *)
Lemma splice_indexOf (l : list string) (x : string) :
  (if negb (indexOf l x =? -1)%Z then splice1 (indexOf l x) l else l)
  = remove_first x l.
Proof.
  induction l as [|y rest IH]; simpl.
  - reflexivity.
  - case_bool_decide as Hy; [reflexivity|].
    pose proof (indexOf_lower rest x) as Hlow.
    destruct (Z.eqb_spec (indexOf rest x) (-1)) as [E|E].
    + simpl. rewrite E in IH. simpl in IH. rewrite <- IH. reflexivity.
    + simpl in IH.
      destruct (Z.eqb_spec (indexOf rest x + 1) (-1)) as [E'|_]; [lia|].
      simpl. unfold splice1 in *.
      replace (Z.to_nat (indexOf rest x + 1)) with (S (Z.to_nat (indexOf rest x)))
        by lia.
      simpl. rewrite IH. reflexivity.
Qed.

Lemma remove_first_other (l : list string) (x k : string) :
  k <> x -> k ∈ l -> k ∈ remove_first x l.
Proof.
  intros Hne. induction l as [|y rest IH]; intros Hk; simpl.
  - exact Hk.
  - apply elem_of_cons in Hk as [->|Hk].
    + rewrite bool_decide_eq_false_2 by congruence. apply elem_of_cons; auto.
    + case_bool_decide; [exact Hk|]. apply elem_of_cons; auto.
Qed.

(** ** Plain objects *)

Section ObjectFacts.

Context {V : Type}.
Implicit Types (o : JSObject V) (l : list (string * V)).

Lemma own_get_set_eq k v l : own_get k (own_set k v l) = Some v.
Proof.
  induction l as [|[k' v'] rest IH]; cbn [own_set own_get].
  - rewrite bool_decide_eq_true_2 by reflexivity. reflexivity.
  - case_bool_decide as E; cbn [own_get].
    + rewrite bool_decide_eq_true_2 by reflexivity. reflexivity.
    + rewrite bool_decide_eq_false_2 by exact E. exact IH.
Qed.

Lemma own_get_set_ne k k' v l :
  k <> k' -> own_get k' (own_set k v l) = own_get k' l.
Proof.
  intros Hne. induction l as [|[k0 v0] rest IH]; cbn [own_set own_get].
  - rewrite bool_decide_eq_false_2 by exact Hne. reflexivity.
  - case_bool_decide as E; cbn [own_get].
    + subst k0. rewrite !bool_decide_eq_false_2 by exact Hne. reflexivity.
    + case_bool_decide; [reflexivity | exact IH].
Qed.

Lemma own_get_delete_eq k l : own_get k (own_delete k l) = None.
Proof.
  induction l as [|[k0 v0] rest IH]; cbn [own_delete own_get].
  - reflexivity.
  - case_bool_decide as E; [exact IH|]. cbn [own_get].
    rewrite bool_decide_eq_false_2 by exact E. exact IH.
Qed.

Lemma own_get_delete_ne k k' l :
  k <> k' -> own_get k' (own_delete k l) = own_get k' l.
Proof.
  intros Hne. induction l as [|[k0 v0] rest IH]; cbn [own_delete own_get].
  - reflexivity.
  - case_bool_decide as E.
    + subst k0. rewrite bool_decide_eq_false_2 by exact Hne. exact IH.
    + cbn [own_get]. case_bool_decide; [reflexivity | exact IH].
Qed.

Lemma own_get_None k l : own_get k l = None <-> k ∉ l.*1.
Proof.
  induction l as [|[k0 v0] rest IH]; cbn [own_get fmap list_fmap fst].
  - split; [intros _; apply not_elem_of_nil | reflexivity].
  - rewrite not_elem_of_cons. case_bool_decide as E.
    + split; [discriminate | intros [Hne _]; congruence].
    + rewrite IH. split; [intros H; split; [congruence | exact H] | tauto].
Qed.

Lemma own_delete_keys k l :
  (own_delete k l).*1 = filter (fun x => x <> k) l.*1.
Proof.
  induction l as [|[k0 v0] rest IH]; cbn [own_delete fmap list_fmap fst].
  - reflexivity.
  - rewrite filter_cons. case_bool_decide as E.
    + rewrite decide_False by (intros H; apply H; exact E). exact IH.
    + rewrite decide_True by exact E.
      cbn [fmap list_fmap fst]. rewrite IH. reflexivity.
Qed.

Lemma own_delete_fresh k l : k ∉ l.*1 -> own_delete k l = l.
Proof.
  induction l as [|[k0 v0] rest IH]; cbn [own_delete fmap list_fmap fst].
  - reflexivity.
  - rewrite not_elem_of_cons. intros [Hne Hrest].
    rewrite bool_decide_eq_false_2 by congruence.
    rewrite (IH Hrest). reflexivity.
Qed.

Lemma own_set_keys k v l :
  (own_set k v l).*1 = if bool_decide (k ∈ l.*1) then l.*1 else l.*1 ++ [k].
Proof.
  induction l as [|[k0 v0] rest IH]; cbn [own_set fmap list_fmap fst app].
  - rewrite bool_decide_eq_false_2 by apply not_elem_of_nil. reflexivity.
  - destruct (decide (k0 = k)) as [E|E].
    + rewrite (bool_decide_eq_true_2 (k0 = k)) by exact E.
      cbn [fmap list_fmap fst]. subst k0.
      rewrite bool_decide_eq_true_2 by (apply elem_of_cons; auto).
      reflexivity.
    + rewrite (bool_decide_eq_false_2 (k0 = k)) by exact E.
      cbn [fmap list_fmap fst]. rewrite IH.
      destruct (decide (k ∈ rest.*1)) as [Hin|Hin].
      * rewrite (bool_decide_eq_true_2 (k ∈ rest.*1)) by exact Hin.
        rewrite bool_decide_eq_true_2 by (apply elem_of_cons; auto).
        reflexivity.
      * rewrite (bool_decide_eq_false_2 (k ∈ rest.*1)) by exact Hin.
        rewrite bool_decide_eq_false_2; [reflexivity|].
        rewrite not_elem_of_cons. split; [congruence | exact Hin].
Qed.

Lemma own_delete_set_fresh k v l :
  k ∉ l.*1 -> own_delete k (own_set k v l) = l.
Proof.
  induction l as [|[k0 v0] rest IH]; cbn [own_set own_delete fmap list_fmap fst].
  - intros _. rewrite bool_decide_eq_true_2 by reflexivity. reflexivity.
  - rewrite not_elem_of_cons. intros [Hne Hrest].
    rewrite bool_decide_eq_false_2 by congruence. cbn [own_delete].
    rewrite bool_decide_eq_false_2 by congruence.
    rewrite (IH Hrest). reflexivity.
Qed.

(** The laws of reading after writing and after deleting. The key
    ["__proto__"] can be written and read back like any other, but
    [delete] does not remove what was written under it. *)
Lemma object_get_set_eq k v o : object_set k v o !! k = Some v.
Proof.
  unfold lookup, object_lookup, object_get, object_set.
  destruct (bool_decide (k = "__proto__")) eqn:Ek; cbn [andb].
  - destruct (own_get k (own o)) as [w|] eqn:Eo.
    + rewrite bool_decide_eq_true_2 by (eexists; reflexivity).
      cbn [negb own proto]. rewrite own_get_set_eq. reflexivity.
    + rewrite bool_decide_eq_false_2 by (intros [? ?]; discriminate).
      cbn [negb own proto]. rewrite Eo. reflexivity.
  - cbn [own proto]. rewrite own_get_set_eq. reflexivity.
Qed.

Lemma object_get_set_ne k k' v o : k <> k' -> object_set k v o !! k' = o !! k'.
Proof.
  intros Hne. unfold lookup, object_lookup, object_get, object_set.
  destruct (bool_decide (k = "__proto__")
            && negb (bool_decide (is_Some (own_get k (own o))))) eqn:Eb;
    cbn [own proto].
  - apply andb_true_iff in Eb as [Ek _]. apply bool_decide_eq_true in Ek.
    subst k. rewrite (bool_decide_eq_false_2 (k' = "__proto__")) by congruence.
    reflexivity.
  - rewrite own_get_set_ne by exact Hne. reflexivity.
Qed.

Lemma object_get_delete_eq k o :
  k <> "__proto__" -> object_delete k o !! k = None.
Proof.
  intros Hk. unfold lookup, object_lookup, object_get, object_delete.
  cbn [own proto]. rewrite own_get_delete_eq.
  rewrite bool_decide_eq_false_2 by exact Hk. reflexivity.
Qed.

Lemma object_get_delete_ne k k' o :
  k <> k' -> object_delete k o !! k' = o !! k'.
Proof.
  intros Hne. unfold lookup, object_lookup, object_get, object_delete.
  cbn [own proto]. rewrite own_get_delete_ne by exact Hne. reflexivity.
Qed.

Lemma object_delete_fresh k o : k ∉ (own o).*1 -> object_delete k o = o.
Proof.
  intros Hk. unfold object_delete. rewrite (own_delete_fresh _ _ Hk).
  destruct o. reflexivity.
Qed.

Lemma object_get_own k o :
  k <> "__proto__" -> (o !! k = None <-> k ∉ (own o).*1).
Proof.
  intros Hk. unfold lookup, object_lookup, object_get.
  rewrite <- own_get_None.
  rewrite (bool_decide_eq_false_2 (k = "__proto__")) by exact Hk.
  destruct (own_get k (own o)); split; congruence.
Qed.

Lemma object_get_new k : (new_object : JSObject V) !! k = None.
Proof.
  unfold lookup, object_lookup, object_get, new_object. cbn [own own_get proto].
  destruct (bool_decide _); reflexivity.
Qed.

Lemma Object_keys_Permutation o : Object_keys o ≡ₚ (own o).*1.
Proof.
  unfold Object_keys. cbv zeta. rewrite merge_sort_Permutation.
  apply filter_app_complement.
Qed.

End ObjectFacts.

(** ** The registry operations, field by field *)

Section Fields.

Context {Color : Type}.
Implicit Types this : ColorRegistry Color.

Lemma deregisterColor_colorsById id this :
  colorsById (deregisterColor id this) = object_delete id (colorsById this).
Proof. unfold deregisterColor. destruct (negb _); reflexivity. Qed.

Lemma deregisterColor_properties id this :
  colorSchema_properties (deregisterColor id this)
  = object_delete id (colorSchema_properties this).
Proof. unfold deregisterColor. destruct (negb _); reflexivity. Qed.

Lemma deregisterColor_fired id this :
  fired (deregisterColor id this) = S (fired this).
Proof. unfold deregisterColor. destruct (negb _); reflexivity. Qed.

Lemma deregisterColor_enum id this :
  colorReferenceSchema_enum (deregisterColor id this)
  = remove_first id (colorReferenceSchema_enum this).
Proof.
  rewrite <- splice_indexOf. unfold deregisterColor.
  destruct (negb _); reflexivity.
Qed.

Lemma deregisterColor_enumDescriptions_absent id this :
  id ∉ colorReferenceSchema_enum this ->
  colorReferenceSchema_enumDescriptions (deregisterColor id this)
  = colorReferenceSchema_enumDescriptions this.
Proof.
  intros Hid. unfold deregisterColor.
  rewrite (indexOf_absent _ _ Hid). reflexivity.
Qed.

Lemma object_set_own_keys {V : Type} k (v : V) (o : JSObject V) :
  "__proto__" ∉ (own o).*1 ->
  NoDup (own o).*1 ->
  ("__proto__" ∉ (own (object_set k v o)).*1)
  /\ NoDup (own (object_set k v o)).*1.
Proof.
  intros Hp Hn. unfold object_set.
  destruct (bool_decide (k = "__proto__")) eqn:Ek; cbn [andb].
  - apply bool_decide_eq_true in Ek. subst k.
    rewrite (bool_decide_eq_false_2 (is_Some _)).
    + cbn [negb own]. split; assumption.
    + apply (proj2 (own_get_None _ _)) in Hp. rewrite Hp.
      intros [? ?]. discriminate.
  - apply bool_decide_eq_false in Ek. cbn [own].
    rewrite own_set_keys. case_bool_decide as Hin; [split; assumption|].
    split.
    + rewrite not_elem_of_app. split; [exact Hp|].
      rewrite list_elem_of_singleton. congruence.
    + apply NoDup_app. split; [exact Hn|]. split.
      * intros x Hx Hx'. apply list_elem_of_singleton in Hx'. subst x.
        exact (Hin Hx).
      * apply NoDup_singleton.
Qed.

Lemma object_delete_own_keys {V : Type} k (o : JSObject V) :
  "__proto__" ∉ (own o).*1 ->
  NoDup (own o).*1 ->
  ("__proto__" ∉ (own (object_delete k o)).*1)
  /\ NoDup (own (object_delete k o)).*1.
Proof.
  intros Hp Hn. unfold object_delete. cbn [own]. rewrite own_delete_keys.
  split.
  - rewrite list_elem_of_filter. tauto.
  - apply NoDup_filter. exact Hn.
Qed.

(** In every state the registry reaches: neither dictionary has an own
    property ["__proto__"], and no own key twice; a contribution is
    filed under its own id; the two dictionaries hold the same ids; and
    a contribution under any id but ["__proto__"] is listed in the
    reference enumeration. *)
Lemma reachable_invariant_full this :
  reachable this ->
  (("__proto__" ∉ (own (colorsById this)).*1)
   /\ NoDup (own (colorsById this)).*1
   /\ ("__proto__" ∉ (own (colorSchema_properties this)).*1)
   /\ NoDup (own (colorSchema_properties this)).*1)
  /\ (forall k c, colorsById this !! k = Some c -> Colors.id c = k)
  /\ (forall k, colorsById this !! k = None
                <-> colorSchema_properties this !! k = None)
  /\ (forall k, k <> "__proto__" -> is_Some (colorsById this !! k)
                -> k ∈ colorReferenceSchema_enum this).
Proof.
  induction 1 as [|id0 dflt descr nt dm this Hr
                    ((Hp1 & Hn1 & Hp2 & Hn2) & IH1 & IH2 & IH3)
                  |id0 this Hr
                    ((Hp1 & Hn1 & Hp2 & Hn2) & IH1 & IH2 & IH3)].
  - split.
    { cbn. repeat split; try apply not_elem_of_nil; apply NoDup_nil_2. }
    cbn [new_ColorRegistry colorsById colorSchema_properties
         colorReferenceSchema_enum].
    split; [|split].
    + intros k c. rewrite object_get_new. discriminate.
    + intros k. rewrite !object_get_new. split; reflexivity.
    + intros k _. rewrite object_get_new. intros [? ?]. discriminate.
  - cbn [registerColor snd colorsById colorSchema_properties
         colorReferenceSchema_enum].
    split.
    { destruct (object_set_own_keys id0
                  (mkContribution id0 descr dflt (default false nt) dm)
                  (colorsById this) Hp1 Hn1) as [? ?].
      destruct (object_set_own_keys id0
                  (mkPropertySchema "string" descr "color-hex" "#ff0000"
                     (truthy dm))
                  (colorSchema_properties this) Hp2 Hn2) as [? ?].
      repeat split; assumption. }
    split; [|split].
    + intros k c. destruct (decide (id0 = k)) as [->|Hne].
      * rewrite object_get_set_eq. intros [= <-]. reflexivity.
      * rewrite object_get_set_ne by exact Hne. apply IH1.
    + intros k. destruct (decide (id0 = k)) as [->|Hne].
      * rewrite !object_get_set_eq. split; discriminate.
      * rewrite !object_get_set_ne by exact Hne. apply IH2.
    + intros k Hk. destruct (decide (id0 = k)) as [->|Hne].
      * intros _. apply elem_of_app. right. apply list_elem_of_singleton.
        reflexivity.
      * rewrite object_get_set_ne by exact Hne. intros Hsome.
        apply elem_of_app. left. apply IH3; assumption.
  - rewrite deregisterColor_colorsById, deregisterColor_properties,
      deregisterColor_enum.
    split.
    { destruct (object_delete_own_keys id0 (colorsById this) Hp1 Hn1) as [? ?].
      destruct (object_delete_own_keys id0 (colorSchema_properties this)
                  Hp2 Hn2) as [? ?].
      repeat split; assumption. }
    destruct (decide (id0 = "__proto__")) as [->|Hid0].
    { rewrite !object_delete_fresh by assumption.
      split; [exact IH1|]. split; [exact IH2|].
      intros k Hk Hsome. apply remove_first_other; [exact Hk|].
      apply IH3; assumption. }
    split; [|split].
    + intros k c. destruct (decide (id0 = k)) as [->|Hne].
      * rewrite object_get_delete_eq by exact Hid0. discriminate.
      * rewrite object_get_delete_ne by exact Hne. apply IH1.
    + intros k. destruct (decide (id0 = k)) as [->|Hne].
      * rewrite !object_get_delete_eq by exact Hid0. split; reflexivity.
      * rewrite !object_get_delete_ne by exact Hne. apply IH2.
    + intros k Hk. destruct (decide (id0 = k)) as [->|Hne].
      * rewrite object_get_delete_eq by exact Hid0. intros [? ?]. discriminate.
      * rewrite object_get_delete_ne by exact Hne. intros Hsome.
        apply remove_first_other; [congruence | apply IH3; assumption].
Qed.

Lemma reachable_invariant this :
  reachable this ->
  (forall k c, colorsById this !! k = Some c -> Colors.id c = k)
  /\ (forall k, colorsById this !! k = None
                <-> colorSchema_properties this !! k = None)
  /\ (forall k, k <> "__proto__" -> is_Some (colorsById this !! k)
                -> k ∈ colorReferenceSchema_enum this).
Proof. intros Hr. apply (reachable_invariant_full this Hr). Qed.

(** The ids of the listed contributions are the keys [Object.keys]
    enumerates, in that order. *)
Lemma getColors_ids this :
  reachable this ->
  ColorContribution_ids (getColors this) = Object_keys (colorsById this).
Proof.
  intros Hr.
  destruct (reachable_invariant_full this Hr) as ((Hp & _) & Hown & _).
  unfold getColors, ColorContribution_ids.
  assert (forall k, k ∈ Object_keys (colorsById this) ->
            exists c, colorsById this !! k = Some c /\ Colors.id c = k) as Hall.
  { intros k Hk. rewrite Object_keys_Permutation in Hk.
    assert (k <> "__proto__") as Hne by (intros ->; exact (Hp Hk)).
    destruct (colorsById this !! k) as [c|] eqn:E.
    - exists c. split; [reflexivity | apply Hown; exact E].
    - apply (object_get_own _ _ Hne) in E. contradiction. }
  induction (Object_keys (colorsById this)) as [|k ks IH].
  - reflexivity.
  - cbn [omap list_omap].
    destruct (Hall k) as (c & Hc & Hid); [apply elem_of_cons; auto|].
    rewrite Hc. cbn [fmap list_fmap]. rewrite Hid. f_equal.
    apply IH. intros k' Hk'. apply Hall. apply elem_of_cons. auto.
Qed.

End Fields.

(** ** The claims *)

(** C6. For every theme, [resolveColorValue] resolves [null] to
    [undefined]; a string that starts with ["#"] to the color
    [Color.fromHex] parses from it; any other string to what
    [theme.getColor] answers for it, and nothing more; a [Color] to
    itself; and a function to its result on the theme. *)
Theorem resolveColorValue_cases {Color : Type} (fromHex : string -> Color)
    (theme : ITheme Color) :
  resolveColorValue fromHex None theme = None
  /\ (forall s : string, String.prefix "#" s = true ->
        resolveColorValue fromHex (Some (CVString s)) theme = Some (fromHex s))
  /\ (forall s : string, String.prefix "#" s = false ->
        resolveColorValue fromHex (Some (CVString s)) theme = getColor theme s)
  /\ (forall c : Color,
        resolveColorValue fromHex (Some (CVColor c)) theme = Some c)
  /\ (forall f : ITheme Color -> option Color,
        resolveColorValue fromHex (Some (CVFunction f)) theme = f theme).
Proof.
  split; [reflexivity|]. split; [|split; [|split; reflexivity]].
  - intros s Hs. apply starts_with_hash in Hs. unfold resolveColorValue.
    rewrite bool_decide_eq_true_2 by exact Hs. reflexivity.
  - intros s Hs. unfold resolveColorValue.
    rewrite bool_decide_eq_false_2; [reflexivity|].
    intros Hget. apply starts_with_hash in Hget. congruence.
Qed.

(** C6 on the literal ["#112233"] and on the reference ["a"] against a
    theme that sets ["a"]. *)
Lemma resolveColorValue_cases_witness :
  resolveColorValue Examples.Color_fromHex (Some (CVString "#112233"))
    Examples.custom_dark_theme
  = Some (Examples.mkRGBA 17 34 51 255)
  /\ resolveColorValue Examples.Color_fromHex (Some (CVString "a"))
       Examples.custom_dark_theme
     = Some Examples.blue.
Proof.
  split.
  - apply (proj1 (proj2 (resolveColorValue_cases Examples.Color_fromHex
                           Examples.custom_dark_theme)) "#112233").
    reflexivity.
  - apply (proj1 (proj2 (proj2 (resolveColorValue_cases Examples.Color_fromHex
                                  Examples.custom_dark_theme))) "a").
    reflexivity.
Defined.



(** C8, as stated, fails: the reference ["a"] is resolved by the theme,
    and a dark theme that sets ["a"] to blue makes ["b"] blue. *)
Lemma resolves_b_to_FF0000_fails :
  ~ resolves_b_to_FF0000 Examples.Color_fromHex Examples.scenario.
Proof.
  intros H. specialize (H Examples.custom_dark_theme eq_refl).
  vm_compute in H. discriminate H.
Qed.

(** C8, amended. After registering ["a"] with dark default ["#FF0000"]
    and ["b"] with dark default the reference ["a"], resolving ["b"]
    against a dark theme whose [getColor("a")] answers with the
    registry's default for ["a"] yields the color of ["#FF0000"]. *)
Theorem resolveDefaultColor_scenario {Color : Type} (fromHex : string -> Color)
    (light_a hc_a light_b hc_b : option (ColorValue Color))
    (this : ColorRegistry Color) (theme : ITheme Color) :
  type theme = type_dark ->
  getColor theme "a"
  = resolveDefaultColor fromHex "a" theme
      (scenario_registry light_a hc_a light_b hc_b this) ->
  resolveDefaultColor fromHex "b" theme
    (scenario_registry light_a hc_a light_b hc_b this)
  = Some (fromHex "#FF0000").
Proof.
  intros Hdark Ha.
  unfold resolveDefaultColor, scenario_registry, registerColor in *.
  cbn [snd colorsById] in *.
  rewrite object_get_set_eq. cbn [defaults]. rewrite Hdark. cbn [defaults_at dark].
  rewrite object_get_set_ne, object_get_set_eq in Ha by discriminate.
  cbn [defaults] in Ha. rewrite Hdark in Ha. cbn [defaults_at dark] in Ha.
  unfold resolveColorValue at 1.
  rewrite bool_decide_eq_false_2 by discriminate.
  rewrite Ha. unfold resolveColorValue.
  rewrite bool_decide_eq_true_2 by reflexivity. reflexivity.
Qed.

(** The amended C8 on a dark theme that falls back on the registry. *)
Lemma resolveDefaultColor_scenario_witness :
  resolveDefaultColor Examples.Color_fromHex "b" Examples.default_dark_theme
    Examples.scenario
  = Some (Examples.mkRGBA 255 0 0 255).
Proof.
  apply (resolveDefaultColor_scenario Examples.Color_fromHex None None None None
           (new_ColorRegistry Examples.RGBA) Examples.default_dark_theme).
  - reflexivity.
  - vm_compute. reflexivity.
Defined.

(** C9. The code does not do what the claim says. An id registered
    twice is listed twice in the reference enumeration; one
    [deregisterColor] removes one listing only, so the id is still in
    the schema, and the second call removes the other listing instead of
    doing nothing. And the id ["__proto__"] is never removed: after
    [deregisterColor("__proto__")] its contribution still resolves. *)
Theorem deregisterColor_misses_listings :
  let once := deregisterColor "a" Examples.registered_twice in
  let twice := deregisterColor "a" once in
  colorReferenceSchema_enum Examples.registered_twice = ["a"; "a"]
  /\ colorReferenceSchema_enum once = ["a"]
  /\ colorReferenceSchema_enum twice = []
  /\ ~ deregister_clears "a" Examples.registered_twice
  /\ resolveDefaultColor Examples.Color_fromHex "__proto__"
       Examples.custom_dark_theme
       (deregisterColor "__proto__" Examples.registered_proto)
     = Some (Examples.mkRGBA 255 0 0 255).
Proof.
  cbn zeta. split; [reflexivity|]. split; [vm_compute; reflexivity|].
  split; [vm_compute; reflexivity|]. split.
  - intros (_ & _ & _ & Hlisted & _). apply Hlisted.
    rewrite deregisterColor_enum. vm_compute. constructor.
  - vm_compute. reflexivity.
Qed.

End ColorsFacts.

(* ===================================================================== *)
(** * Properties of the string builder *)
(* ===================================================================== *)

Module StringBuilderFacts.

Import StringBuilder.
Local Open Scope Z_scope.

Lemma run_app calls1 calls2 sb :
  run (calls1 ++ calls2) sb = run calls2 (run calls1 sb).
Proof. unfold run. apply fold_left_app. Qed.

Lemma run_no_reset calls : forall sb,
  Forall (fun c => is_reset c = false) calls ->
  build (run calls sb) = build sb ++ concat (appended <$> calls).
Proof.
  induction calls as [|c rest IH]; intros sb Hall.
  - simpl. rewrite app_nil_r. reflexivity.
  - apply Forall_cons in Hall as [Hc Hrest].
    change (run (c :: rest) sb) with (run rest (call c sb)).
    rewrite (IH _ Hrest). cbn [fmap list_fmap concat].
    rewrite app_assoc. f_equal.
    destruct c; try discriminate Hc; reflexivity.
Qed.

(** X1. What [build] returns is what was appended since the last
    [reset], in order: without a [reset] among the calls it is the old
    content followed by the appended texts, and after a [reset] nothing
    written before it is left. *)
Theorem build_after_calls (sb : CompatStringBuilder) :
  (forall calls : list Call,
     Forall (fun c => is_reset c = false) calls ->
     build (run calls sb) = build sb ++ concat (appended <$> calls))
  /\ (forall before after : list Call,
        Forall (fun c => is_reset c = false) after ->
        build (run (before ++ Call_reset :: after) sb)
        = concat (appended <$> after)).
Proof.
  split.
  - intros calls. apply run_no_reset.
  - intros before after Hall. rewrite run_app.
    change (run (Call_reset :: after) (run before sb))
      with (run after (reset (run before sb))).
    rewrite (run_no_reset _ _ Hall). reflexivity.
Qed.

Lemma build_after_calls_witness :
  build (run [Call_write1 104; Call_reset; Call_appendASCIIString [111; 107];
              Call_appendASCII 33]
           (createStringBuilder 16))
  = [111; 107; 33].
Proof.
  apply (proj2 (build_after_calls (createStringBuilder 16))
           [Call_write1 104]
           [Call_appendASCIIString [111; 107]; Call_appendASCII 33]).
  repeat constructor.
Defined.



(** X3. Appending a string one code unit at a time with [appendASCII]
    builds the same text as one [appendASCIIString]. *)
Theorem appendASCII_each_is_appendASCIIString (str : JSString)
    (sb : CompatStringBuilder) :
  code_units str ->
  build (fold_left (fun b charCode => appendASCII charCode b) str sb)
  = build (appendASCIIString str sb).
Proof.
  revert sb. induction str as [|u rest IH]; intros sb Hstr.
  - unfold appendASCIIString, build. cbn [fold_left _pieces].
    rewrite app_nil_r. reflexivity.
  - apply Forall_cons in Hstr as [Hu Hrest].
    cbn [fold_left]. rewrite (IH _ Hrest).
    unfold appendASCIIString, appendASCII, write1, build, String_fromCharCode.
    cbn [_pieces]. rewrite Z.mod_small by exact Hu.
    rewrite <- app_assoc. reflexivity.
Qed.

Lemma appendASCII_each_is_appendASCIIString_witness :
  build (fold_left (fun b charCode => appendASCII charCode b) [60; 47; 62]
           (createStringBuilder 8))
  = [60; 47; 62].
Proof.
  apply (appendASCII_each_is_appendASCIIString [60; 47; 62]
           (createStringBuilder 8)).
  repeat constructor; simpl; lia.
Defined.

End StringBuilderFacts.

(* ===================================================================== *)
(** * Further properties of the tokenization adapters *)
(* ===================================================================== *)

Module LanguagesMoreFacts.

Import Languages LanguagesMore.
Local Open Scope Z_scope.

(** ** The classic form *)

Lemma foldr_max_shift (l : list Z) (a b : Z) :
  foldr Z.max (Z.max a b) l = Z.max b (foldr Z.max a l).
Proof. induction l as [|x l IH]; simpl; [lia | rewrite IH; lia]. Qed.

Lemma classic_loop_running_max lang offsetDelta rest : forall i prev,
  i <> 0%nat ->
  tok_startIndex <$> _toClassicTokens_loop lang offsetDelta i prev rest
  = imap (fun j _ =>
            foldr Z.max prev (take (S j) (startIndex <$> rest)) + offsetDelta)
      rest.
Proof.
  induction rest as [|t r IH]; intros i prev Hi.
  - reflexivity.
  - cbn [_toClassicTokens_loop fmap list_fmap imap tok_startIndex].
    destruct (Nat.eqb_spec i 0) as [->|_]; [congruence|].
    f_equal.
    + cbn [take foldr]. rewrite take_0. cbn [foldr].
      destruct (Z.ltb_spec (startIndex t) prev); lia.
    + rewrite IH by discriminate. apply imap_ext. intros j x _.
      cbn [compose take foldr fmap list_fmap].
      replace (if startIndex t <? prev then prev else startIndex t)
        with (Z.max prev (startIndex t))
        by (destruct (Z.ltb_spec (startIndex t) prev); lia).
      rewrite foldr_max_shift. reflexivity.
Qed.

(** X4. The corrected start index of the classic form in closed form:
    the token at position [i] starts at [offsetDelta] plus the largest
    of 0 and the raw start indices at the positions 1 to [i]; the raw
    start index of the first token plays no part. *)
Theorem toClassicTokens_running_max (tokens : list IToken) (lang : string)
    (offsetDelta : Z) :
  tok_startIndex <$> _toClassicTokens tokens lang offsetDelta
  = imap (fun i _ =>
            foldr Z.max 0 (take i (tail (startIndex <$> tokens))) + offsetDelta)
      tokens.
Proof.
  unfold _toClassicTokens. destruct tokens as [|t rest]; [reflexivity|].
  cbn [_toClassicTokens_loop fmap list_fmap imap tok_startIndex Nat.eqb tail
       take foldr].
  f_equal. rewrite classic_loop_running_max by discriminate.
  apply imap_ext. intros j x _. reflexivity.
Qed.

Lemma classic_loop_translate lang offsetDelta tokens : forall i prev,
  _toClassicTokens_loop lang offsetDelta i prev tokens
  = (fun tok => mkToken (tok_startIndex tok + offsetDelta) (tok_scopes tok)
                  (tok_language tok))
      <$> _toClassicTokens_loop lang 0 i prev tokens.
Proof.
  induction tokens as [|t rest IH]; intros i prev.
  - reflexivity.
  - cbn [_toClassicTokens_loop fmap list_fmap tok_startIndex tok_scopes
         tok_language].
    rewrite Z.add_0_r. f_equal. apply IH.
Qed.

(** X5. [offsetDelta] only translates: the classic tokens for any
    [offsetDelta] are the classic tokens for 0 with [offsetDelta] added
    to every start index. *)
Theorem toClassicTokens_translate (tokens : list IToken) (lang : string)
    (offsetDelta : Z) :
  _toClassicTokens tokens lang offsetDelta
  = (fun tok => mkToken (tok_startIndex tok + offsetDelta) (tok_scopes tok)
                  (tok_language tok))
      <$> _toClassicTokens tokens lang 0.
Proof. apply classic_loop_translate. Qed.

Lemma Sorted_le_unshift (d : Z) (l : list Z) :
  Sorted Z.le ((fun x => x + d) <$> l) -> Sorted Z.le l.
Proof.
  induction l as [|x l IH]; intros Hs.
  - constructor.
  - cbn [fmap list_fmap] in Hs. inversion Hs as [|? ? Hs' Hhd]; subst.
    constructor; [apply IH; exact Hs'|].
    destruct l as [|y l']; constructor.
    cbn [fmap list_fmap] in Hhd. inversion Hhd; subst. lia.
Qed.

(** The classic form leaves a line as it is when the line starts at 0
    and its start indices never decrease. *)
Lemma toClassicTokens_ordered tokens lang offsetDelta :
  Sorted Z.le (startIndex <$> tokens) ->
  (forall t, head tokens = Some t -> startIndex t = 0) ->
  _toClassicTokens tokens lang offsetDelta
  = as_classic lang offsetDelta <$> tokens.
Proof.
  intros Hs H0. unfold _toClassicTokens.
  destruct tokens as [|t rest]; [reflexivity|].
  specialize (H0 t eq_refl).
  cbn [_toClassicTokens_loop fmap list_fmap Nat.eqb].
  unfold as_classic at 1. rewrite H0. f_equal.
  apply LanguagesFacts.classic_loop_ordered; [discriminate|].
  cbn [fmap list_fmap] in Hs. rewrite H0 in Hs. exact Hs.
Qed.

(** X6. The classic form returns a line unchanged (up to [offsetDelta])
    exactly when the line is well formed: its start indices never
    decrease and its first token starts at 0. *)
Theorem toClassicTokens_identity_iff (tokens : list IToken) (lang : string)
    (offsetDelta : Z) :
  _toClassicTokens tokens lang offsetDelta
  = as_classic lang offsetDelta <$> tokens
  <-> (Sorted Z.le (startIndex <$> tokens)
       /\ (forall t, head tokens = Some t -> startIndex t = 0)).
Proof.
  split.
  - intros Heq.
    assert (tok_startIndex <$> _toClassicTokens tokens lang offsetDelta
            = (fun x => x + offsetDelta) <$> (startIndex <$> tokens)) as Hst.
    { rewrite Heq, <- !list_fmap_compose. reflexivity. }
    split.
    + apply (Sorted_le_unshift offsetDelta). rewrite <- Hst.
      apply LanguagesFacts.toClassicTokens_sorted.
    + intros t Ht. destruct tokens as [|t0 rest]; [discriminate|].
      inversion Ht; subst t0. unfold _toClassicTokens in Hst.
      cbn [_toClassicTokens_loop fmap list_fmap tok_startIndex Nat.eqb] in Hst.
      inversion Hst. lia.
  - intros [Hs H0]. apply toClassicTokens_ordered; assumption.
Qed.

Lemma toClassicTokens_identity_iff_witness :
  _toClassicTokens Examples.ordered_tokens "demo" 3
  = as_classic "demo" 3 <$> Examples.ordered_tokens.
Proof.
  apply (proj2 (toClassicTokens_identity_iff Examples.ordered_tokens "demo" 3)).
  split.
  - vm_compute. repeat constructor; discriminate.
  - intros t Ht. inversion Ht. reflexivity.
Defined.

(** X7. Sanitation is idempotent: feeding the classic form its own
    output (for [offsetDelta = 0]) returns that output. *)
Theorem toClassicTokens_idempotent (tokens : list IToken) (lang : string) :
  _toClassicTokens (as_raw <$> _toClassicTokens tokens lang 0) lang 0
  = _toClassicTokens tokens lang 0.
Proof.
  rewrite toClassicTokens_ordered.
  - rewrite <- list_fmap_compose.
    pose proof (LanguagesFacts.classic_loop_language lang 0 tokens 0%nat 0)
      as Hlang.
    fold (_toClassicTokens tokens lang 0) in Hlang.
    induction Hlang as [|tok l Htok _ IH]; [reflexivity|].
    cbn [fmap list_fmap]. rewrite IH. f_equal.
    destruct tok as [s sc la]. unfold compose, as_classic, as_raw.
    cbn [startIndex scopes tok_startIndex tok_scopes tok_language] in *.
    rewrite Z.add_0_r, Htok. reflexivity.
  - rewrite <- list_fmap_compose.
    apply LanguagesFacts.toClassicTokens_sorted.
  - intros t Ht. unfold _toClassicTokens in Ht.
    destruct tokens as [|t0 rest]; [discriminate|].
    cbn [_toClassicTokens_loop fmap list_fmap head Nat.eqb] in Ht.
    inversion Ht. reflexivity.
Qed.

(** ** Lines that grow *)

Lemma classic_loop_app lang offsetDelta l1 l2 : forall i prev,
  exists prev',
    _toClassicTokens_loop lang offsetDelta i prev (l1 ++ l2)
    = _toClassicTokens_loop lang offsetDelta i prev l1
      ++ _toClassicTokens_loop lang offsetDelta (i + length l1) prev' l2.
Proof.
  induction l1 as [|t rest IH]; intros i prev.
  - exists prev. simpl. rewrite Nat.add_0_r. reflexivity.
  - cbn [app _toClassicTokens_loop length].
    match goal with
    | |- context [_toClassicTokens_loop _ _ (S i) ?s (rest ++ l2)] =>
        destruct (IH (S i) s) as [prev' Hp]
    end.
    exists prev'. rewrite Hp.
    replace (i + S (length rest))%nat with (S i + length rest)%nat by lia.
    reflexivity.
Qed.

Lemma binary_loop_extends languageId theme offsetDelta tokens :
  forall i prev result,
  exists suffix,
    _toBinaryTokens_loop languageId theme offsetDelta i prev result tokens
    = result ++ suffix.
Proof.
  induction tokens as [|t rest IH]; intros i prev result.
  - exists []. simpl. rewrite app_nil_r. reflexivity.
  - cbn [_toBinaryTokens_loop]. cbv zeta.
    destruct (_ && _).
    + apply IH.
    + match goal with
      | |- context [_toBinaryTokens_loop _ _ _ (S i) ?s (result ++ ?w) rest] =>
          destruct (IH (S i) s (result ++ w)) as [suffix Hs];
          exists (w ++ suffix); rewrite Hs, <- app_assoc; reflexivity
      end.
Qed.

Lemma binary_loop_app languageId theme offsetDelta l1 l2 :
  forall i prev result,
  exists prev',
    _toBinaryTokens_loop languageId theme offsetDelta i prev result (l1 ++ l2)
    = _toBinaryTokens_loop languageId theme offsetDelta (i + length l1) prev'
        (_toBinaryTokens_loop languageId theme offsetDelta i prev result l1) l2.
Proof.
  induction l1 as [|t rest IH]; intros i prev result.
  - exists prev. simpl. rewrite Nat.add_0_r. reflexivity.
  - cbn [app _toBinaryTokens_loop length]. cbv zeta.
    replace (i + S (length rest))%nat with (S i + length rest)%nat by lia.
    destruct (_ && _); apply IH.
Qed.

(** X8. Both forms are stable under extension of the line: the tokens
    emitted for a line are a prefix of the tokens emitted for any line
    that continues it, so later raw tokens never change what was emitted
    for earlier ones. *)
Theorem adapters_prefix_stable (ts : IStandaloneThemeService)
    (lid : LanguageIdentifier) (l1 l2 : list IToken) (offsetDelta : Z) :
  _toClassicTokens l1 (language lid) offsetDelta
    `prefix_of` _toClassicTokens (l1 ++ l2) (language lid) offsetDelta
  /\ _toBinaryTokens ts lid l1 offsetDelta
       `prefix_of` _toBinaryTokens ts lid (l1 ++ l2) offsetDelta.
Proof.
  split.
  - unfold _toClassicTokens.
    destruct (classic_loop_app (language lid) offsetDelta l1 l2 0%nat 0)
      as [prev' ->].
    eexists. reflexivity.
  - unfold _toBinaryTokens.
    destruct (binary_loop_app (id lid) (tokenTheme (getTheme ts)) offsetDelta
                l1 l2 0%nat 0 []) as [prev' ->].
    destruct (binary_loop_extends (id lid) (tokenTheme (getTheme ts))
                offsetDelta l2 (0 + length l1)%nat prev'
                (_toBinaryTokens_loop (id lid) (tokenTheme (getTheme ts))
                   offsetDelta 0%nat 0 [] l1)) as [suffix ->].
    rewrite fmap_app. eexists. reflexivity.
Qed.

(** ** The binary form against the classic form *)

Lemma emitted_below_classic languageId theme lang offsetDelta tokens :
  forall (i j : nat) pb pc lastmd (k p : nat) t,
  pb <= pc ->
  (i = 0%nat -> j = 0%nat /\ lastmd = None) ->
  (i <> 0%nat -> j <> 0%nat) ->
  emitted_loop languageId theme i lastmd tokens !! k = Some (p, t) ->
  exists tokB tokC,
    _toClassicTokens_loop lang offsetDelta j pb
      (emitted_loop languageId theme i lastmd tokens).*2 !! k = Some tokB
    /\ _toClassicTokens_loop lang offsetDelta i pc tokens !! (p - i)%nat
       = Some tokC
    /\ tok_startIndex tokB <= tok_startIndex tokC.
Proof.
  induction tokens as [|t0 rest IH];
    intros i j pb pc lastmd k p t Hle H0 Hn Hk.
  - discriminate.
  - cbn [emitted_loop] in *. case_bool_decide as Hm.
    + assert (i <> 0%nat) as Hi.
      { intros ->. destruct (H0 eq_refl) as [_ E]. congruence. }
      pose proof (LanguagesFacts.emitted_loop_lookup _ _ _ _ _ _ _ _ Hk)
        as [Hpi _].
      cbn [_toClassicTokens_loop].
      destruct (Nat.eqb_spec i 0) as [E|_]; [congruence|].
      edestruct (IH (S i) j pb
                   (if startIndex t0 <? pc then pc else startIndex t0)
                   lastmd k p t) as (tokB & tokC & HB & HC & Hbc);
        try eassumption; try (intros; lia); auto.
      { destruct (Z.ltb_spec (startIndex t0) pc); lia. }
      exists tokB, tokC. split; [exact HB|]. split; [|exact Hbc].
      replace (p - i)%nat with (S (p - S i)) by lia. exact HC.
    + cbn [fmap list_fmap snd _toClassicTokens_loop].
      assert ((j =? 0)%nat = (i =? 0)%nat) as Eij.
      { destruct (Nat.eqb_spec i 0) as [Ei|Ei].
        - destruct (H0 Ei) as [-> _]. reflexivity.
        - specialize (Hn Ei). apply Nat.eqb_neq. assumption. }
      rewrite Eij.
      destruct k as [|k]; cbn [lookup list_lookup] in Hk |- *.
      * inversion Hk; subst p t. rewrite Nat.sub_diag.
        eexists _, _. split; [reflexivity|]. split; [reflexivity|].
        cbn [tok_startIndex].
        destruct (i =? 0)%nat; [lia|].
        destruct (Z.ltb_spec (startIndex t0) pb);
          destruct (Z.ltb_spec (startIndex t0) pc); lia.
      * pose proof (LanguagesFacts.emitted_loop_lookup _ _ _ _ _ _ _ _ Hk)
          as [Hpi _].
        edestruct (IH (S i) (S j)
                     (if (i =? 0)%nat then 0
                      else if startIndex t0 <? pb then pb else startIndex t0)
                     (if (i =? 0)%nat then 0
                      else if startIndex t0 <? pc then pc else startIndex t0)
                     (Some (tt_match theme languageId (scopes t0))) k p t)
          as (tokB & tokC & HB & HC & Hbc);
          try eassumption; try (intros; lia).
        { destruct (i =? 0)%nat; [lia|].
          destruct (Z.ltb_spec (startIndex t0) pb);
            destruct (Z.ltb_spec (startIndex t0) pc); lia. }
        exists tokB, tokC. split; [exact HB|]. split; [|exact Hbc].
        replace (p - i)%nat with (S (p - S i)) by lia. exact HC.
Qed.

(** X9. Skipping never moves a token to the right: with an offset delta
    and raw start indices that fit 32 bits, the start index the binary
    form stores for an emitted token is at most the start index the
    classic form gives the same raw token. *)
Theorem binary_start_at_most_classic (ts : IStandaloneThemeService)
    (lid : LanguageIdentifier) (raw : list IToken) (offsetDelta : Z) :
  0 <= offsetDelta < 2 ^ 32 ->
  Forall (fun t => startIndex t + offsetDelta < 2 ^ 32) raw ->
  forall (k p : nat) (s : Z),
    emitted_positions ts lid raw !! k = Some p ->
    _toBinaryTokens ts lid raw offsetDelta !! (2 * k)%nat = Some s ->
    exists tokC,
      _toClassicTokens raw (language lid) offsetDelta !! p = Some tokC
      /\ s <= tok_startIndex tokC.
Proof.
  intros Hd Hraw k p s Hp Hs.
  unfold emitted_positions in Hp. rewrite list_lookup_fmap in Hp.
  destruct (emitted ts lid raw !! k) as [[p' t]|] eqn:Hk; [|discriminate].
  cbn in Hp. inversion Hp; subst p'. clear Hp.
  unfold emitted in Hk.
  destruct (emitted_below_classic (id lid) (tokenTheme (getTheme ts))
              (language lid) offsetDelta raw 0%nat 0%nat 0 0 None k p t)
    as (tokB & tokC & HB & HC & Hbc); try tauto; try lia; try exact Hk.
  rewrite Nat.sub_0_r in HC. exists tokC. split; [exact HC|].
  rewrite LanguagesFacts.toBinaryTokens_as_classic,
    LanguagesFacts.encode_pairs_lookup_even in Hs.
  unfold _toClassicTokens, emitted_tokens, emitted in Hs.
  rewrite HB in Hs. cbn in Hs. inversion Hs; subst s.
  assert (0 <= tok_startIndex tokB < 2 ^ 32) as Hrange.
  { assert (Forall (fun tok => 0 <= tok_startIndex tok < 2 ^ 32)
              (_toClassicTokens_loop (language lid) offsetDelta 0 0
                 (emitted_loop (id lid) (tokenTheme (getTheme ts)) 0 None
                    raw).*2)) as Hb.
    { apply LanguagesFacts.classic_loop_bounds; try lia.
      apply LanguagesFacts.emitted_loop_Forall. exact Hraw. }
    rewrite Forall_lookup in Hb. exact (Hb _ _ HB). }
  unfold to_uint32. rewrite Z.mod_small by exact Hrange. exact Hbc.
Qed.

Lemma binary_start_at_most_classic_witness :
  exists tokC,
    _toClassicTokens Examples.out_of_order_tokens "demo" 10 !! 2%nat
    = Some tokC
    /\ 12 <= tok_startIndex tokC.
Proof.
  apply (binary_start_at_most_classic Examples.demo_themeService
           Examples.demo_language Examples.out_of_order_tokens 10
           ltac:(lia)
           ltac:(unfold Examples.out_of_order_tokens;
                 repeat (apply Forall_cons; split; [cbn [startIndex]; lia|]);
                 apply Forall_nil; exact I)
           1%nat 2%nat 12).
  - reflexivity.
  - vm_compute. reflexivity.
Defined.

(** ** The metadata words *)

Lemma metadata_of_encode_pairs ts lid classic :
  metadata_of (encode_pairs ts lid classic)
  = (fun tok => to_uint32 (tt_match (tokenTheme (getTheme ts)) (id lid)
                             (tok_scopes tok))) <$> classic.
Proof.
  unfold encode_pairs. induction classic as [|tok rest IH].
  - reflexivity.
  - rewrite bind_cons. cbn [app metadata_of fmap list_fmap].
    f_equal. exact IH.
Qed.

Lemma emitted_loop_run_heads languageId theme tokens : forall i lastmd,
  (fun t => tt_match theme languageId (scopes t))
    <$> (emitted_loop languageId theme i lastmd tokens).*2
  = run_heads lastmd ((fun t => tt_match theme languageId (scopes t)) <$> tokens).
Proof.
  induction tokens as [|t rest IH]; intros i lastmd.
  - reflexivity.
  - cbn [emitted_loop run_heads fmap list_fmap].
    case_bool_decide as Hm.
    + rewrite IH, Hm. reflexivity.
    + cbn [fmap list_fmap snd]. rewrite IH. reflexivity.
Qed.

Lemma run_heads_adjacent ms : forall previous,
  (forall a, head (run_heads previous ms) = Some a -> previous <> Some a)
  /\ (forall (k : nat) a b,
        run_heads previous ms !! k = Some a ->
        run_heads previous ms !! S k = Some b -> a <> b).
Proof.
  induction ms as [|m rest IH]; intros previous.
  - split; intros; discriminate.
  - cbn [run_heads]. destruct (IH (Some m)) as [IHh IHa].
    case_bool_decide as Hm.
    + split; [|exact IHa]. rewrite Hm. exact IHh.
    + split.
      * intros a Ha. inversion Ha; subst. exact Hm.
      * intros k a b Ha Hb. destruct k as [|k].
        -- cbn in Ha, Hb. inversion Ha; subst a.
           intros ->. apply (IHh b); [|reflexivity].
           destruct (run_heads (Some b) rest); [discriminate|].
           cbn in Hb |- *. exact Hb.
        -- cbn in Ha, Hb. eapply IHa; eassumption.
Qed.

Lemma run_heads_Forall (P : Z -> Prop) ms : forall previous,
  Forall P ms -> Forall P (run_heads previous ms).
Proof.
  induction ms as [|m rest IH]; intros previous Hall.
  - constructor.
  - apply Forall_cons in Hall as [Hm Hrest]. cbn [run_heads].
    case_bool_decide; [|constructor; [exact Hm|]]; apply IH; exact Hrest.
Qed.

(** X10. The metadata words of the encoded array are the resolved
    metadata of the raw tokens with every run of equal neighbours reduced
    to its first element; when the token theme yields 32-bit words, no
    two neighbouring pairs of the array carry the same metadata. *)
Theorem binary_metadata_run_heads (ts : IStandaloneThemeService)
    (lid : LanguageIdentifier) (raw : list IToken) (offsetDelta : Z) :
  let out := _toBinaryTokens ts lid raw offsetDelta in
  let ms := resolved_metadata ts lid raw in
  metadata_of out = to_uint32 <$> run_heads None ms
  /\ (Forall (fun m => 0 <= m < 2 ^ 32) ms ->
      forall (k : nat) (a b : Z),
        metadata_of out !! k = Some a ->
        metadata_of out !! S k = Some b -> a <> b).
Proof.
  cbn zeta.
  assert (metadata_of (_toBinaryTokens ts lid raw offsetDelta)
          = to_uint32 <$> run_heads None (resolved_metadata ts lid raw)) as Hmd.
  { rewrite LanguagesFacts.toBinaryTokens_as_classic, metadata_of_encode_pairs.
    unfold resolved_metadata, emitted_tokens, emitted.
    rewrite <- emitted_loop_run_heads with (i := 0%nat).
    rewrite (list_fmap_compose tok_scopes
               (fun sc => to_uint32 (tt_match (tokenTheme (getTheme ts))
                                       (id lid) sc))).
    unfold _toClassicTokens. rewrite LanguagesFacts.classic_loop_scopes.
    rewrite <- !list_fmap_compose. reflexivity. }
  split; [exact Hmd|].
  intros Hrange k a b Ha Hb. rewrite Hmd in Ha, Hb.
  rewrite list_lookup_fmap in Ha, Hb.
  destruct (run_heads None (resolved_metadata ts lid raw) !! k)
    as [a'|] eqn:Ea; [|discriminate].
  destruct (run_heads None (resolved_metadata ts lid raw) !! S k)
    as [b'|] eqn:Eb; [|discriminate].
  cbn in Ha, Hb. inversion Ha; inversion Hb; subst a b.
  pose proof (run_heads_Forall _ _ None Hrange) as Hrh.
  rewrite Forall_lookup in Hrh.
  pose proof (Hrh _ _ Ea) as Hra. pose proof (Hrh _ _ Eb) as Hrb.
  unfold to_uint32. rewrite !Z.mod_small by assumption.
  eapply (proj2 (run_heads_adjacent _ None)); eassumption.
Qed.

Lemma binary_metadata_run_heads_witness :
  metadata_of (_toBinaryTokens Examples.demo_themeService
                 Examples.demo_language Examples.ordered_tokens 0)
  = [7; 263]
  /\ (7 : Z) <> 263.
Proof.
  split.
  - vm_compute. reflexivity.
  - refine (proj2 (binary_metadata_run_heads Examples.demo_themeService
                     Examples.demo_language Examples.ordered_tokens 0)
              _ 0%nat 7 263 _ _).
    + change (resolved_metadata Examples.demo_themeService
                Examples.demo_language Examples.ordered_tokens)
        with [7; 7; 7; 263].
      repeat (apply Forall_cons; split; [lia|]). apply Forall_nil. exact I.
    + vm_compute. reflexivity.
    + vm_compute. reflexivity.
Defined.

End LanguagesMoreFacts.

(* ===================================================================== *)
(** * Further properties of the color registry *)
(* ===================================================================== *)

Module ColorsMoreFacts.

Import Colors ColorsMore.

(** ** Arrays *)

Lemma indexOf_upper (l : list string) (x : string) :
  (indexOf l x < Z.of_nat (length l))%Z.
Proof.
  induction l as [|y rest IH]; cbn [indexOf length].
  - lia.
  - case_bool_decide; [lia|].
    destruct (Z.eqb_spec (indexOf rest x) (-1)); lia.
Qed.

Lemma indexOf_app_fresh (l : list string) (x : string) :
  x ∉ l -> indexOf (l ++ [x]) x = Z.of_nat (length l).
Proof.
  induction l as [|y rest IH]; intros Hx; cbn [app indexOf length].
  - rewrite bool_decide_eq_true_2 by reflexivity. reflexivity.
  - apply not_elem_of_cons in Hx as [Hne Hrest].
    rewrite bool_decide_eq_false_2 by congruence.
    rewrite (IH Hrest).
    destruct (Z.eqb_spec (Z.of_nat (length rest)) (-1)); lia.
Qed.

Lemma remove_first_app_fresh (l : list string) (x : string) :
  x ∉ l -> remove_first x (l ++ [x]) = l.
Proof.
  induction l as [|y rest IH]; intros Hx; cbn [app remove_first].
  - rewrite bool_decide_eq_true_2 by reflexivity. reflexivity.
  - apply not_elem_of_cons in Hx as [Hne Hrest].
    rewrite bool_decide_eq_false_2 by congruence.
    rewrite (IH Hrest). reflexivity.
Qed.

Section Registry.

Context {Color : Type}.
Implicit Types this : ColorRegistry Color.

(** The parts of the reachable-state invariant that concern the two
    schemas. *)
Lemma reachable_schemas this :
  reachable this ->
  length (colorReferenceSchema_enum this)
  = length (colorReferenceSchema_enumDescriptions this)
  /\ (forall k c, colorsById this !! k = Some c ->
        exists p, colorSchema_properties this !! k = Some p
                  /\ schema_type p = "string"
                  /\ schema_description p = description c
                  /\ schema_format p = "color-hex"
                  /\ schema_default p = "#ff0000"
                  /\ schema_deprecationMessage p
                     = truthy (deprecationMessage c)).
Proof.
  induction 1 as [|id0 dflt descr nt dm this Hr [IHl IHp]
                  |id0 this Hr [IHl IHp]].
  - split; [reflexivity|]. intros k c Hk.
    cbn [new_ColorRegistry colorsById] in Hk.
    rewrite ColorsFacts.object_get_new in Hk. discriminate.
  - cbn [registerColor snd colorsById colorSchema_properties
         colorReferenceSchema_enum colorReferenceSchema_enumDescriptions].
    split.
    + rewrite !length_app, IHl. reflexivity.
    + intros k c. destruct (decide (id0 = k)) as [->|Hne].
      * rewrite !ColorsFacts.object_get_set_eq. intros [= <-].
        eexists. split; [reflexivity|]. cbn. auto.
      * rewrite !ColorsFacts.object_get_set_ne by exact Hne. apply IHp.
  - split.
    + unfold deregisterColor.
      pose proof (ColorsFacts.indexOf_lower (colorReferenceSchema_enum this) id0)
        as Hlo.
      pose proof (indexOf_upper (colorReferenceSchema_enum this) id0) as Hup.
      destruct (Z.eqb_spec (indexOf (colorReferenceSchema_enum this) id0) (-1))
        as [E|E]; cbn [negb colorReferenceSchema_enum
                         colorReferenceSchema_enumDescriptions].
      * exact IHl.
      * unfold splice1.
        rewrite !length_delete, IHl; [reflexivity| |];
          apply lookup_lt_is_Some; lia.
    + rewrite ColorsFacts.deregisterColor_colorsById,
        ColorsFacts.deregisterColor_properties.
      destruct (ColorsFacts.reachable_invariant_full this Hr)
        as ((Hp1 & _ & Hp2 & _) & _).
      intros k c. destruct (decide (id0 = "__proto__")) as [->|Hid0].
      * rewrite !ColorsFacts.object_delete_fresh by assumption. apply IHp.
      * destruct (decide (id0 = k)) as [->|Hne].
        -- rewrite ColorsFacts.object_get_delete_eq by exact Hid0. discriminate.
        -- rewrite !ColorsFacts.object_get_delete_ne by exact Hne. apply IHp.
Qed.

End Registry.

(** ** The registry *)

(** X11. Register, then look up: [registerColor] returns its id; after
    it, [resolveDefaultColor] of that id is the resolution of the
    default just registered for the theme's type, whatever was
    registered under the id before, and every other id resolves as it
    did. *)
Theorem registerColor_then_resolve {Color : Type} (fromHex : string -> Color)
    (id : string) (dflt : option (ColorDefaults Color)) (descr : string)
    (nt : option bool) (dm : option string) (this : ColorRegistry Color)
    (theme : ITheme Color) :
  let result := registerColor id dflt descr nt dm this in
  result.1 = id
  /\ resolveDefaultColor fromHex id theme result.2
     = match dflt with
       | Some d => resolveColorValue fromHex (defaults_at d (type theme)) theme
       | None => None
       end
  /\ (forall other : string, other <> id ->
        resolveDefaultColor fromHex other theme result.2
        = resolveDefaultColor fromHex other theme this).
Proof.
  cbn zeta. unfold resolveDefaultColor, registerColor. cbn [fst snd colorsById].
  split; [reflexivity|]. split.
  - rewrite ColorsFacts.object_get_set_eq. reflexivity.
  - intros other Hne. rewrite ColorsFacts.object_get_set_ne by congruence.
    reflexivity.
Qed.

Lemma registerColor_then_resolve_witness :
  resolveDefaultColor Examples.Color_fromHex "a" Examples.custom_dark_theme
    (registerColor "b" None "again" None None Examples.scenario).2
  = resolveDefaultColor Examples.Color_fromHex "a" Examples.custom_dark_theme
      Examples.scenario.
Proof.
  apply (registerColor_then_resolve Examples.Color_fromHex "b" None "again"
           None None Examples.scenario Examples.custom_dark_theme).
  discriminate.
Defined.

(** X12. In every state the registry reaches, [getColors()] lists
    exactly the ids registered as own properties, each once and in the
    order of [Object.keys]: an id is among the listed contributions
    precisely when it is not ["__proto__"] and a contribution is filed
    under it, no id is listed twice (an overwrite replaces), and the
    list is as long as [colorsById] has own properties. The id
    ["__proto__"] is never listed, registered or not. *)
Theorem getColors_lists_registered {Color : Type} (this : ColorRegistry Color) :
  reachable this ->
  ColorContribution_ids (getColors this) = Object_keys (colorsById this)
  /\ NoDup (ColorContribution_ids (getColors this))
  /\ (forall id : string,
        id ∈ ColorContribution_ids (getColors this)
        <-> id <> "__proto__" /\ is_Some (colorsById this !! id))
  /\ length (getColors this) = length (own (colorsById this)).
Proof.
  intros Hreach.
  destruct (ColorsFacts.reachable_invariant_full this Hreach)
    as ((Hp & Hn & _) & _).
  pose proof (ColorsFacts.getColors_ids this Hreach) as Hids.
  split; [exact Hids|]. split; [|split].
  - rewrite Hids, ColorsFacts.Object_keys_Permutation. exact Hn.
  - intros id. rewrite Hids, ColorsFacts.Object_keys_Permutation. split.
    + intros Hin.
      assert (id <> "__proto__") as Hne by (intros ->; exact (Hp Hin)).
      split; [exact Hne|].
      destruct (colorsById this !! id) eqn:E; [eexists; reflexivity|].
      apply (ColorsFacts.object_get_own _ _ Hne) in E. contradiction.
    + intros [Hne [c Hc]].
      destruct (decide (id ∈ (own (colorsById this)).*1)) as [Hin|Hout];
        [exact Hin|].
      apply (ColorsFacts.object_get_own _ _ Hne) in Hout. congruence.
  - transitivity (length (ColorContribution_ids (getColors this))).
    + unfold ColorContribution_ids. rewrite length_fmap. reflexivity.
    + rewrite Hids, ColorsFacts.Object_keys_Permutation, length_fmap.
      reflexivity.
Qed.

Lemma getColors_lists_registered_witness :
  ColorContribution_ids (getColors Examples.registered_twice) = ["a"]
  /\ getColors Examples.registered_proto = [].
Proof.
  split.
  - rewrite (proj1 (getColors_lists_registered Examples.registered_twice
                      ltac:(unfold Examples.registered_twice;
                            apply reachable_register, reachable_register,
                              reachable_new))).
    vm_compute. reflexivity.
  - vm_compute. reflexivity.
Defined.

(** X13. The schemas stay in step with the contributions: in every state
    the registry reaches, the reference enumeration and its descriptions
    have the same length, and every contribution has a property schema
    of type ["string"], format ["color-hex"] and default ["#ff0000"]
    that carries the contribution's description, and its deprecation
    message when that is not empty. *)
Theorem schemas_follow_contributions {Color : Type} (this : ColorRegistry Color) :
  reachable this ->
  length (colorReferenceSchema_enum this)
  = length (colorReferenceSchema_enumDescriptions this)
  /\ (forall id c, colorsById this !! id = Some c ->
        exists p, colorSchema_properties this !! id = Some p
                  /\ schema_type p = "string"
                  /\ schema_description p = description c
                  /\ schema_format p = "color-hex"
                  /\ schema_default p = "#ff0000"
                  /\ schema_deprecationMessage p
                     = truthy (deprecationMessage c))
  /\ (forall id, colorSchema_properties this !! id = None
                 <-> colorsById this !! id = None).
Proof.
  intros Hreach.
  destruct (reachable_schemas this Hreach) as [Hl Hp].
  pose proof (ColorsFacts.reachable_invariant _ Hreach) as (_ & Hdom & _).
  split; [exact Hl|]. split; [exact Hp|].
  intros id. symmetry. apply Hdom.
Qed.

Lemma schemas_follow_contributions_witness :
  length (colorReferenceSchema_enum Examples.registered_twice)
  = length (colorReferenceSchema_enumDescriptions Examples.registered_twice).
Proof.
  apply (schemas_follow_contributions Examples.registered_twice).
  unfold Examples.registered_twice.
  apply reachable_register, reachable_register, reachable_new.
Defined.

(** X14. Register, then deregister: for an id other than
    ["__proto__"] that the reference enumeration does not list,
    [registerColor] followed by [deregisterColor] leaves the
    contributions, the property schemas, the enumeration and its
    descriptions exactly as they were. *)
Theorem register_then_deregister {Color : Type} (id : string)
    (dflt : option (ColorDefaults Color)) (descr : string) (nt : option bool)
    (dm : option string) (this : ColorRegistry Color) :
  reachable this ->
  id <> "__proto__" ->
  id ∉ colorReferenceSchema_enum this ->
  same_contents
    (deregisterColor id (registerColor id dflt descr nt dm this).2) this.
Proof.
  intros Hreach Hproto Hid.
  pose proof (ColorsFacts.reachable_invariant _ Hreach) as (_ & Hdom & Hlisted).
  destruct (reachable_schemas this Hreach) as [Hlen _].
  assert (colorsById this !! id = None) as Hnone.
  { destruct (colorsById this !! id) eqn:E; [|reflexivity].
    exfalso. apply Hid, Hlisted; [exact Hproto|]. rewrite E. eexists.
    reflexivity. }
  pose proof (proj1 (Hdom id) Hnone) as Hnone'.
  apply (ColorsFacts.object_get_own _ _ Hproto) in Hnone, Hnone'.
  assert (forall (V : Type) (v : V) (o : JSObject V),
            id ∉ (own o).*1 -> object_delete id (object_set id v o) = o)
    as Hundo.
  { intros V v o Ho. unfold object_set, object_delete.
    rewrite (bool_decide_eq_false_2 (id = "__proto__")) by exact Hproto.
    cbn [andb own proto]. rewrite (ColorsFacts.own_delete_set_fresh _ _ _ Ho).
    destruct o. reflexivity. }
  unfold same_contents.
  rewrite ColorsFacts.deregisterColor_colorsById,
    ColorsFacts.deregisterColor_properties, ColorsFacts.deregisterColor_enum.
  unfold registerColor. cbn [snd colorsById colorSchema_properties
                               colorReferenceSchema_enum].
  rewrite !Hundo by assumption.
  rewrite (remove_first_app_fresh _ _ Hid).
  repeat split.
  unfold deregisterColor. cbn [colorReferenceSchema_enum
                                 colorReferenceSchema_enumDescriptions].
  rewrite (indexOf_app_fresh _ _ Hid).
  destruct (Z.eqb_spec (Z.of_nat (length (colorReferenceSchema_enum this))) (-1))
    as [E|_]; [lia|].
  cbn [negb colorReferenceSchema_enumDescriptions]. unfold splice1.
  rewrite Nat2Z.id, Hlen, delete_middle, app_nil_r. reflexivity.
Qed.

Lemma register_then_deregister_witness :
  same_contents
    (deregisterColor "c"
       (registerColor "c" None "third" (Some true) None Examples.scenario).2)
    Examples.scenario.
Proof.
  apply (register_then_deregister "c" None "third" (Some true) None
           Examples.scenario).
  - unfold Examples.scenario, scenario_registry.
    apply reachable_register, reachable_register, reachable_new.
  - discriminate.
  - vm_compute. intros H.
    repeat (inversion H as [|? ? ? H']; subst; clear H; rename H' into H).
Defined.



Lemma run_calls_snoc {Color : Type} (calls : list (RegistryCall Color)) c
    (this : ColorRegistry Color) :
  run_calls (calls ++ [c]) this = apply_call c (run_calls calls this).
Proof. unfold run_calls. rewrite fold_left_app. reflexivity. Qed.

(** X16. The schema-changed notification fires once per call, no more
    and no less: the states the registry reaches are the results of
    sequences of [registerColor] and [deregisterColor] calls on a new
    registry, and after any such sequence the notification has fired as
    often as there were calls. *)
Theorem notification_fires_once_per_call {Color : Type} :
  (forall this : ColorRegistry Color,
     reachable this
     <-> exists calls, this = run_calls calls (new_ColorRegistry Color))
  /\ (forall (calls : list (RegistryCall Color)) (this : ColorRegistry Color),
        fired (run_calls calls this) = fired this + length calls).
Proof.
  split.
  - intros this. split.
    + induction 1 as [|id0 dflt descr nt dm this Hr [calls ->]
                      |id0 this Hr [calls ->]].
      * exists []. reflexivity.
      * exists (calls ++ [Call_registerColor id0 dflt descr nt dm]).
        rewrite run_calls_snoc. reflexivity.
      * exists (calls ++ [Call_deregisterColor id0]).
        rewrite run_calls_snoc. reflexivity.
    + intros [calls ->]. induction calls as [|c calls IH] using rev_ind.
      * apply reachable_new.
      * rewrite run_calls_snoc. destruct c; cbn [apply_call].
        -- apply reachable_register. exact IH.
        -- apply reachable_deregister. exact IH.
  - intros calls. induction calls as [|c calls IH] using rev_ind; intros this.
    + cbn. lia.
    + rewrite run_calls_snoc, length_app. cbn [length].
      destruct c; cbn [apply_call].
      * unfold registerColor. cbn [snd fired]. rewrite IH. lia.
      * rewrite ColorsFacts.deregisterColor_fired, IH. lia.
Qed.

Lemma notification_fires_once_per_call_witness :
  reachable Examples.scenario.
Proof.
  apply (proj1 (@notification_fires_once_per_call Examples.RGBA)).
  exists [ Call_registerColor "a"
             (Some (mkDefaults None (Some (CVString "#FF0000")) None))
             EmptyString None None;
           Call_registerColor "b"
             (Some (mkDefaults None (Some (CVString "a")) None))
             EmptyString None None ].
  reflexivity.
Defined.

(** ** Derived colors *)

Section OneOf.

Context {Color : Type}.
Variable fromHex : string -> Color.
Implicit Types theme : ITheme Color.

Lemma oneOf_loop_app xs ys theme :
  oneOf_loop fromHex (xs ++ ys) theme
  = match oneOf_loop fromHex xs theme with
    | Some color => Some color
    | None => oneOf_loop fromHex ys theme
    end.
Proof.
  induction xs as [|x xs IH]; cbn [app oneOf_loop].
  - reflexivity.
  - destruct (resolveColorValue fromHex (Some x) theme); [reflexivity | exact IH].
Qed.

End OneOf.

(** X17. [oneOf] picks the first value that resolves: its result is
    [undefined] exactly when no value resolves, and when it is a color,
    that color is the resolution of some value before which no value
    resolves. *)
Theorem oneOf_first_resolved {Color : Type} (fromHex : string -> Color)
    (colorValues : list (ColorValue Color)) (theme : ITheme Color) :
  (oneOf fromHex colorValues theme = None
   <-> Forall (fun v => resolveColorValue fromHex (Some v) theme = None)
         colorValues)
  /\ (forall color, oneOf fromHex colorValues theme = Some color ->
        exists (i : nat) v,
          colorValues !! i = Some v
          /\ resolveColorValue fromHex (Some v) theme = Some color
          /\ (forall (j : nat) w, j < i -> colorValues !! j = Some w ->
                resolveColorValue fromHex (Some w) theme = None)).
Proof.
  unfold oneOf. induction colorValues as [|v rest [IHn IHs]]; cbn [oneOf_loop].
  - split.
    + split; [constructor | reflexivity].
    + intros color H. discriminate H.
  - destruct (resolveColorValue fromHex (Some v) theme) as [c|] eqn:Ev.
    + split.
      * split; [discriminate|]. intros Hall.
        apply Forall_cons in Hall as [Hv _]. congruence.
      * intros color [= <-]. exists 0, v. split; [reflexivity|].
        split; [exact Ev|]. intros j w Hj. lia.
    + split.
      * rewrite IHn. split.
        -- intros Hall. constructor; assumption.
        -- intros Hall. apply Forall_cons in Hall as [_ Hrest]. exact Hrest.
      * intros color Hc. destruct (IHs color Hc) as (i & w & Hi & Hw & Hbefore).
        exists (S i), w. split; [exact Hi|]. split; [exact Hw|].
        intros j u Hj Hu. destruct j as [|j].
        -- cbn in Hu. inversion Hu; subst u. exact Ev.
        -- cbn in Hu. apply (Hbefore j u); [lia | exact Hu].
Qed.

Lemma oneOf_first_resolved_witness :
  exists (i : nat) v,
    [CVString "missing"; CVString "#112233"; CVString "a"] !! i = Some v
    /\ resolveColorValue Examples.Color_fromHex (Some v)
         Examples.custom_dark_theme
       = Some (Examples.mkRGBA 17 34 51 255)
    /\ (forall (j : nat) w, j < i ->
          [CVString "missing"; CVString "#112233"; CVString "a"] !! j = Some w ->
          resolveColorValue Examples.Color_fromHex (Some w)
            Examples.custom_dark_theme = None).
Proof.
  apply (proj2 (oneOf_first_resolved Examples.Color_fromHex
                  [CVString "missing"; CVString "#112233"; CVString "a"]
                  Examples.custom_dark_theme)).
  reflexivity.
Defined.

(** X18. [oneOf] composes: over two lists of values in a row it is
    [oneOf] of the first list, falling back on [oneOf] of the second; and
    a nested [oneOf] among the values can be flattened. *)
Theorem oneOf_composes {Color : Type} (fromHex : string -> Color)
    (xs ys : list (ColorValue Color)) (theme : ITheme Color) :
  oneOf fromHex (xs ++ ys) theme
  = match oneOf fromHex xs theme with
    | Some color => Some color
    | None => oneOf fromHex ys theme
    end
  /\ oneOf fromHex (CVFunction (oneOf fromHex xs) :: ys) theme
     = oneOf fromHex (xs ++ ys) theme.
Proof.
  unfold oneOf. split.
  - apply oneOf_loop_app.
  - rewrite oneOf_loop_app. reflexivity.
Qed.

(** ** The theming participant *)

(** X19. The theming participant only adds rules: it keeps the rules
    the collector holds, in order, and appends one rule for each of its
    six colors that the theme defines, so a theme that defines none of
    them leaves the collector as it was. *)
Theorem themingParticipant_adds_rules {Color : Type}
    (toString : Color -> string) (theme : ITheme Color)
    (collector : list string) :
  themingParticipant toString theme collector
  = collector ++ themingParticipant toString theme []
  /\ length (themingParticipant toString theme [])
     = length (omap (getColor theme) participant_colors).
Proof.
  unfold themingParticipant, participant_colors, addRule.
  cbn [omap list_omap].
  destruct (getColor theme editorBackground);
    destruct (getColor theme editorForeground);
    destruct (getColor theme editorGutter);
    destruct (getColor theme editorRangeHighlight);
    destruct (getColor theme editorRangeHighlightBorder);
    destruct (getColor theme editorWhitespaces);
    cbn [app length]; rewrite <- ?app_assoc; cbn [app];
    rewrite ?app_nil_r; split; reflexivity.
Qed.

End ColorsMoreFacts.
